(** * Media acquisition core of the space-news generator

    A shallow embedding of [api_manager.py], [database_client.py] and
    [resource_manager.py], and the properties of the circuit breaker, the
    content cache, the health tracker, the retry executor, the acquisition
    orchestrator and the resource governor.

    Conventions.
    - Python [int] is [Z]; a [float] is read as the exact rational it
      denotes ([Q]): readings of [time.time()], delays and rates.
    - A [datetime] is a number of microseconds ([Z]); the ISO strings sent to
      the store are compared there as timestamps.
    - A Python [dict] keyed by source name is a [gmap string _].
    - The functions of the breaker and of the store take each clock reading
      as an argument; the [APIManager] reads the clocks of a [World]. *)

From Stdlib Require Import ZArith QArith Qround Lqa Lia List Ascii String Bool.
From stdpp Require Import base option list gmap strings.

Local Open Scope Z_scope.

(** ** Rational helpers *)

(** [x < y] on floats, as a boolean. *)
Definition Qltb (x y : Q) : bool := negb (Qle_bool y x).

(** ** api_manager.py: CircuitBreaker *)

Record CircuitBreaker := mkCircuitBreaker {
  failure_threshold : Z;
  timeout : Z;
  failures : gmap string Z;
  last_failure_time : gmap string Q
}.

(** [CircuitBreaker.__init__] *)
Definition CircuitBreaker_init (threshold tmo : Z) : CircuitBreaker :=
  {| failure_threshold := threshold; timeout := tmo;
     failures := ∅; last_failure_time := ∅ |}.

(** [CircuitBreaker()] as [APIManager.__init__] builds it. *)
Definition CircuitBreaker_default : CircuitBreaker := CircuitBreaker_init 5 60.

Definition set_failures (cb : CircuitBreaker) (f : gmap string Z) : CircuitBreaker :=
  {| failure_threshold := failure_threshold cb; timeout := timeout cb;
     failures := f; last_failure_time := last_failure_time cb |}.

(** [self.failures.get(source, 0)] *)
Definition failure_count (cb : CircuitBreaker) (source : string) : Z :=
  default 0 (failures cb !! source).

(** [self.last_failure_time.get(source, 0)] *)
Definition last_failure (cb : CircuitBreaker) (source : string) : Q :=
  default 0%Q (last_failure_time cb !! source).

(** [is_open]: the answer and the breaker after the check ([now] is the
    reading of [time.time()]). *)
Definition is_open (cb : CircuitBreaker) (source : string) (now : Q)
  : bool * CircuitBreaker :=
  match failures cb !! source with
  | None => (false, cb)
  | Some n =>
      if failure_threshold cb <=? n then
        let elapsed := (now - last_failure cb source)%Q in
        if Qltb elapsed (inject_Z (timeout cb)) then (true, cb)
        else (false, set_failures cb (<[source := 0]> (failures cb)))
      else (false, cb)
  end.

Definition record_success (cb : CircuitBreaker) (source : string) : CircuitBreaker :=
  set_failures cb (<[source := 0]> (failures cb)).

Definition record_failure (cb : CircuitBreaker) (source : string) (now : Q)
  : CircuitBreaker :=
  {| failure_threshold := failure_threshold cb; timeout := timeout cb;
     failures := <[source := failure_count cb source + 1]> (failures cb);
     last_failure_time := <[source := now]> (last_failure_time cb) |}.

(** The calls a client can make on a breaker, and a breaker's history. *)
Inductive breaker_call :=
| CallIsOpen (source : string) (now : Q)
| CallRecordSuccess (source : string)
| CallRecordFailure (source : string) (now : Q).

Definition breaker_step (cb : CircuitBreaker) (c : breaker_call) : CircuitBreaker :=
  match c with
  | CallIsOpen s now => snd (is_open cb s now)
  | CallRecordSuccess s => record_success cb s
  | CallRecordFailure s now => record_failure cb s now
  end.

Definition breaker_run (cb : CircuitBreaker) (cs : list breaker_call) : CircuitBreaker :=
  fold_left breaker_step cs cb.

(** [record_failure] once per reading of the clock in [ts], in order. *)
Definition record_failures (cb : CircuitBreaker) (source : string) (ts : list Q)
  : CircuitBreaker :=
  fold_left (fun c t => record_failure c source t) ts cb.

(** ** database_client.py: query normalization

    A [str] is a string of code points; the model covers the code points
    below 256, one per [ascii]. *)

Definition code_between (lo hi : N) (c : ascii) : bool :=
  ((lo <=? N_of_ascii c) && (N_of_ascii c <=? hi))%N.

(** [str.isspace] on one code point: TAB..CR, FS..US and SPACE, NEL, NBSP. *)
Definition isspace (c : ascii) : bool :=
  code_between 9 13 c || code_between 28 32 c
  || (N_of_ascii c =? 133)%N || (N_of_ascii c =? 160)%N.

(** [str.lower] on one code point: A..Z and the accented capitals
    U+00C0..U+00DE (the sign U+00D7 apart) move up by 32. *)
Definition lower_char (c : ascii) : ascii :=
  if code_between 65 90 c
     || (code_between 192 222 c && negb (N_of_ascii c =? 215)%N)
  then ascii_of_N (N_of_ascii c + 32) else c.

(** [str.lower] *)
Fixpoint lower (s : string) : string :=
  match s with
  | EmptyString => EmptyString
  | String c s' => String (lower_char c) (lower s')
  end.

(** [str.split()] without arguments: the maximal runs of characters that
    are not whitespace, scanning left to right; [cur] is the run being read. *)
Fixpoint split_go (cur : string) (s : string) : list string :=
  match s with
  | EmptyString => match cur with EmptyString => [] | _ => [cur] end
  | String c s' =>
      if isspace c then
        match cur with
        | EmptyString => split_go EmptyString s'
        | _ => cur :: split_go EmptyString s'
        end
      else split_go (cur ++ String c EmptyString)%string s'
  end.

Definition split (s : string) : list string := split_go EmptyString s.

(** [sep.join(words)] *)
Fixpoint join (sep : string) (words : list string) : string :=
  match words with
  | [] => EmptyString
  | [w] => w
  | w :: ws => (w ++ sep ++ join sep ws)%string
  end.

(** [DatabaseClient._normalize_query] *)
Definition _normalize_query (query : string) : string :=
  join " "%string (split (lower query)).

(** ** database_client.py: the store

    The Supabase tables are lists of rows in storage order. The schema is not
    part of the repository: the columns a client never sends ([id],
    [use_count], [last_used_at]) are filled by [media_cache_defaults], which
    the store carries as a parameter. *)

Record MediaRow := mkMediaRow {
  mc_id : Z;
  mc_query : string;
  mc_source : string;
  mc_media_url : string;
  mc_local_path : string;
  mc_file_hash : string;
  mc_media_type : string;
  mc_resolution : option string;
  mc_file_size : Z;
  mc_quality_score : Z;
  mc_use_count : Z;
  mc_last_used_at : option Z;
  mc_expires_at : Z
}.

Record ApiRow := mkApiRow {
  at_source : string;
  at_query : string;
  at_success : bool;
  at_response_time_ms : Z;
  at_error_message : option string;
  at_created_at : Z
}.

Record MediaDefaults := mkMediaDefaults {
  new_id : Z;
  new_use_count : Z;
  new_last_used_at : option Z
}.

Record DatabaseClient := mkDatabaseClient {
  media_cache : list MediaRow;
  api_tracking : list ApiRow;
  media_cache_defaults : list MediaRow -> Z -> MediaDefaults
}.

Definition set_media_cache (db : DatabaseClient) (t : list MediaRow) : DatabaseClient :=
  {| media_cache := t; api_tracking := api_tracking db;
     media_cache_defaults := media_cache_defaults db |}.

Definition set_api_tracking (db : DatabaseClient) (t : list ApiRow) : DatabaseClient :=
  {| media_cache := media_cache db; api_tracking := t;
     media_cache_defaults := media_cache_defaults db |}.

(** [timedelta(days=n)] and [timedelta(minutes=n)] in microseconds. *)
Definition timedelta_days (n : Z) : Z := n * 86400 * 1000000.
Definition timedelta_minutes (n : Z) : Z := n * 60 * 1000000.

(** [.order(col1, desc=True).order(col2, desc=True)]: a stable sort, the
    larger [(quality_score, use_count)] first. *)
Definition ranks_before (a b : MediaRow) : bool :=
  (mc_quality_score b <? mc_quality_score a)
  || ((mc_quality_score b =? mc_quality_score a)
      && (mc_use_count b <=? mc_use_count a)).

Fixpoint insert_ranked (r : MediaRow) (sorted : list MediaRow) : list MediaRow :=
  match sorted with
  | [] => [r]
  | x :: xs => if ranks_before r x then r :: x :: xs else x :: insert_ranked r xs
  end.

Definition order_ranked (rows : list MediaRow) : list MediaRow :=
  fold_right insert_ranked [] rows.

(** [if source:] an absent or empty source does not filter. *)
Definition source_matches (source : option string) (r : MediaRow) : bool :=
  match source with
  | None | Some EmptyString => true
  | Some s => String.eqb (mc_source r) s
  end.

(** The rows [get_cached_media] selects before ordering. *)
Definition cache_candidate (normalized_query : string) (now : Z)
    (source : option string) (r : MediaRow) : bool :=
  String.eqb (mc_query r) normalized_query
  && (now <? mc_expires_at r)
  && source_matches source r.

(** [.update({last_used_at, use_count}).eq("id", id)] *)
Definition bump_usage (id : Z) (now : Z) (count : Z) (r : MediaRow) : MediaRow :=
  if mc_id r =? id then
    {| mc_id := mc_id r; mc_query := mc_query r; mc_source := mc_source r;
       mc_media_url := mc_media_url r; mc_local_path := mc_local_path r;
       mc_file_hash := mc_file_hash r; mc_media_type := mc_media_type r;
       mc_resolution := mc_resolution r; mc_file_size := mc_file_size r;
       mc_quality_score := mc_quality_score r;
       mc_use_count := count; mc_last_used_at := Some now;
       mc_expires_at := mc_expires_at r |}
  else r.

(** [get_cached_media]; [now] and [now'] are the two readings of
    [datetime.now()], for the expiry filter and for the usage update. The
    row returned is the one fetched, before the update. *)
Definition get_cached_media (db : DatabaseClient) (now now' : Z)
    (query : string) (source : option string)
  : option MediaRow * DatabaseClient :=
  let normalized_query := _normalize_query query in
  let result :=
    take 1 (order_ranked
              (filter (fun r => cache_candidate normalized_query now source r = true)
                      (media_cache db))) in
  match result with
  | media :: _ =>
      (Some media,
       set_media_cache db
         (bump_usage (mc_id media) now' (mc_use_count media + 1)
            <$> media_cache db))
  | [] => (None, db)
  end.

(** A row of a response: [select("id")] fetches the [id] column alone,
    [insert] answers with the whole stored row. *)
Inductive ResponseRow :=
| IdOnly (id : Z)
| WholeRow (r : MediaRow).

(** [save_media_cache] *)
Definition save_media_cache (db : DatabaseClient) (now : Z)
    (query source media_url local_path file_hash media_type : string)
    (resolution : option string) (file_size quality_score : Z)
  : ResponseRow * DatabaseClient :=
  let normalized_query := _normalize_query query in
  let existing :=
    mc_id <$> filter (fun r => mc_file_hash r = file_hash) (media_cache db) in
  match existing with
  | id :: _ => (IdOnly id, db)
  | [] =>
      let d := media_cache_defaults db (media_cache db) now in
      let data :=
        {| mc_id := new_id d; mc_query := normalized_query; mc_source := source;
           mc_media_url := media_url; mc_local_path := local_path;
           mc_file_hash := file_hash; mc_media_type := media_type;
           mc_resolution := resolution; mc_file_size := file_size;
           mc_quality_score := quality_score;
           mc_use_count := new_use_count d;
           mc_last_used_at := new_last_used_at d;
           mc_expires_at := now + timedelta_days 30 |} in
      (WholeRow data, set_media_cache db (media_cache db ++ [data]))
  end.

(** [cleanup_expired_cache] *)
Definition cleanup_expired_cache (db : DatabaseClient) (now : Z) : DatabaseClient :=
  set_media_cache db
    (filter (fun r => negb (mc_expires_at r <? now) = true) (media_cache db)).

(** [track_api_call]. Modelled from the spec: the [created_at] column of the
    call log, which the absent schema fills, is the time of the insert. *)
Definition track_api_call (db : DatabaseClient) (now : Z)
    (source query : string) (success : bool) (response_time_ms : Z)
    (error_message : option string) : DatabaseClient :=
  set_api_tracking db
    (api_tracking db ++
     [{| at_source := source; at_query := query; at_success := success;
         at_response_time_ms := response_time_ms;
         at_error_message := error_message; at_created_at := now |}]).

Record ApiHealth := mkApiHealth {
  success_rate : Q;
  avg_response_time : Q;
  total_calls : Z
}.

(** The rows [get_api_health] reads. *)
Definition health_window (db : DatabaseClient) (now : Z) (source : string)
    (minutes : Z) : list ApiRow :=
  let cutoff_time := now - timedelta_minutes minutes in
  filter (fun c => at_source c = source ∧ cutoff_time < at_created_at c)
         (api_tracking db).

(** [sum(...)] over a list of integers *)
Definition sum_Z (l : list Z) : Z := fold_right Z.add 0 l.

(** [get_api_health] *)
Definition get_api_health (db : DatabaseClient) (now : Z) (source : string)
    (minutes : Z) : ApiHealth :=
  let data := health_window db now source minutes in
  match data with
  | [] => {| success_rate := 1; avg_response_time := 0; total_calls := 0 |}
  | _ =>
      let total_calls := Z.of_nat (length data) in
      let successful_calls :=
        sum_Z ((fun _ => 1) <$> filter (fun c => at_success c = true) data) in
      let avg := (inject_Z (sum_Z (at_response_time_ms <$> data))
                  / inject_Z total_calls)%Q in
      {| success_rate := (inject_Z successful_calls / inject_Z total_calls)%Q;
         avg_response_time := avg;
         total_calls := total_calls |}
  end.

(** ** api_manager.py: APIManager

    What lies outside the process is a [World]: the clocks, read through a
    counter of clock accesses, and the providers, whose answer to a request
    depends on how many requests were issued before it. *)

Inductive Outcome (A : Type) :=
| Returned (a : A)
| Raised (e : string).
Arguments Returned {A} a.
Arguments Raised {A} e.

Record Request := mkRequest { req_source : string; req_query : string }.

Record World := mkWorld {
  time_time : nat -> Q;
  datetime_now : nat -> Z;
  provider : string -> string -> nat -> Outcome (option string)
}.

(** A zero-argument callable that performs one provider call. *)
Record Operation (A : Type) := mkOperation {
  op_request : Request;
  op_result : nat -> Outcome A
}.
Arguments op_request {A} o.
Arguments op_result {A} o k.

(** The fields of an [APIManager] ([db], [circuit_breaker]) and what the
    process did so far: clock accesses, provider requests, sleeps. *)
Record State := mkState {
  db : DatabaseClient;
  circuit_breaker : CircuitBreaker;
  clock_reads : nat;
  requests : list Request;
  sleeps : list Q
}.

Definition M (A : Type) : Type := State -> Outcome A * State.

Definition ret {A} (a : A) : M A := fun st => (Returned a, st).

Definition raise {A} (e : string) : M A := fun st => (Raised e, st).

Definition bind {A B} (m : M A) (k : A -> M B) : M B :=
  fun st =>
    match m st with
    | (Returned a, st') => k a st'
    | (Raised e, st') => (Raised e, st')
    end.

(** [try: body  except Exception as e: handler e] *)
Definition try_except {A} (body : M A) (handler : string -> M A) : M A :=
  fun st =>
    match body st with
    | (Returned a, st') => (Returned a, st')
    | (Raised e, st') => handler e st'
    end.

Notation "x <- m ;; k" := (bind m (fun x => k))
  (at level 100, m at next level, right associativity).
Notation "m ;;; k" := (bind m (fun _ => k))
  (at level 100, right associativity).

Definition tick (st : State) : State :=
  {| db := db st; circuit_breaker := circuit_breaker st;
     clock_reads := S (clock_reads st);
     requests := requests st; sleeps := sleeps st |}.

Definition set_db (st : State) (d : DatabaseClient) : State :=
  {| db := d; circuit_breaker := circuit_breaker st;
     clock_reads := clock_reads st;
     requests := requests st; sleeps := sleeps st |}.

Definition set_circuit_breaker (st : State) (cb : CircuitBreaker) : State :=
  {| db := db st; circuit_breaker := cb;
     clock_reads := clock_reads st;
     requests := requests st; sleeps := sleeps st |}.

(** [time.time()] *)
Definition read_time (w : World) : M Q :=
  fun st => (Returned (time_time w (clock_reads st)), tick st).

(** [datetime.now()] *)
Definition read_datetime (w : World) : M Z :=
  fun st => (Returned (datetime_now w (clock_reads st)), tick st).

(** [time.sleep(delay)], which refuses a negative delay. *)
Definition sleep (delay : Q) : M unit :=
  fun st =>
    if Qltb delay 0 then (Raised "sleep length must be non-negative"%string, st)
    else (Returned tt,
          {| db := db st; circuit_breaker := circuit_breaker st;
             clock_reads := clock_reads st;
             requests := requests st; sleeps := sleeps st ++ [delay] |}).

(** [func()] *)
Definition invoke {A} (func : Operation A) : M A :=
  fun st =>
    (op_result func (length (requests st)),
     {| db := db st; circuit_breaker := circuit_breaker st;
        clock_reads := clock_reads st;
        requests := requests st ++ [op_request func]; sleeps := sleeps st |}).

(** The calls on [self.db] and [self.circuit_breaker]. *)
Definition db_track_api_call (w : World) (source query : string) (success : bool)
    (response_time_ms : Z) (error_message : option string) : M unit :=
  now <- read_datetime w ;;
  fun st =>
    (Returned tt,
     set_db st (track_api_call (db st) now source query success
                               response_time_ms error_message)).

Definition db_get_api_health (w : World) (source : string) (minutes : Z)
  : M ApiHealth :=
  now <- read_datetime w ;;
  fun st => (Returned (get_api_health (db st) now source minutes), st).

Definition db_get_cached_media (w : World) (query : string)
    (source : option string) : M (option MediaRow) :=
  now <- read_datetime w ;;
  fun st =>
    match get_cached_media (db st) now (datetime_now w (clock_reads st))
                           query source with
    | (Some media, d) => (Returned (Some media), tick (set_db st d))
    | (None, d) => (Returned None, set_db st d)
    end.

Definition cb_is_open (w : World) (source : string) : M bool :=
  fun st =>
    match failures (circuit_breaker st) !! source with
    | None => (Returned false, st)
    | Some n =>
        if failure_threshold (circuit_breaker st) <=? n then
          let r := is_open (circuit_breaker st) source
                           (time_time w (clock_reads st)) in
          (Returned (fst r), tick (set_circuit_breaker st (snd r)))
        else (Returned false, st)
    end.

Definition cb_record_success (source : string) : M unit :=
  fun st =>
    (Returned tt,
     set_circuit_breaker st (record_success (circuit_breaker st) source)).

Definition cb_record_failure (w : World) (source : string) : M unit :=
  now <- read_time w ;;
  fun st =>
    (Returned tt,
     set_circuit_breaker st (record_failure (circuit_breaker st) source now)).

(** [int(x)] on a float: truncation towards zero. *)
Definition int_of_float (x : Q) : Z :=
  if Qle_bool 0 x then Qfloor x else Qceiling x.

(** The body of the [for attempt in range(max_retries)] loop of
    [retry_with_backoff], with [remaining] iterations left from [attempt]
    on. [None] is the [return None] after the loop. *)
Fixpoint retry_attempts (w : World) {A} (func : Operation A) (max_retries : Z)
    (base_delay : Q) (source : string) (remaining : nat) (attempt : Z)
  : M (option A) :=
  match remaining with
  | O => ret None
  | S remaining' =>
      start_time <- read_time w ;;
      try_except
        (result <- invoke func ;;
         t <- read_time w ;;
         let response_time := int_of_float ((t - start_time) * 1000)%Q in
         db_track_api_call w source EmptyString true response_time None ;;;
         cb_record_success source ;;;
         ret (Some result))
        (fun e =>
           t <- read_time w ;;
           let response_time := int_of_float ((t - start_time) * 1000)%Q in
           db_track_api_call w source EmptyString false response_time (Some e) ;;;
           cb_record_failure w source ;;;
           if attempt =? max_retries - 1 then raise e
           else
             let delay := (base_delay * inject_Z (2 ^ attempt))%Q in
             sleep delay ;;;
             retry_attempts w func max_retries base_delay source
                            remaining' (attempt + 1))
  end.

(** [retry_with_backoff] *)
Definition retry_with_backoff (w : World) {A} (func : Operation A)
    (max_retries : Z) (base_delay : Q) (source : string) : M (option A) :=
  retry_attempts w func max_retries base_delay source (Z.to_nat max_retries) 0.

(** The provider functions: one HTTP request each, whose answer (a URL,
    nothing, or an exception) the world gives. *)
Definition provider_call (w : World) (name query : string)
  : Operation (option string) :=
  {| op_request := {| req_source := name; req_query := query |};
     op_result := provider w name query |}.

Definition _search_nasa (w : World) (query : string) := provider_call w "nasa" query.
Definition _search_pexels (w : World) (query : string) := provider_call w "pexels" query.
Definition _search_pixabay (w : World) (query : string) := provider_call w "pixabay" query.
Definition _search_unsplash (w : World) (query : string) := provider_call w "unsplash" query.
Definition _search_giphy (w : World) (query : string) := provider_call w "giphy" query.

(** What a function that returns [Optional[str]] hands back when the retry
    loop returns its result, or [None] itself. *)
Definition returned_url (r : option (option string)) : option string :=
  match r with
  | Some url => url
  | None => None
  end.

(** [_search_source]; the retry loop runs with its defaults
    [max_retries=3], [base_delay=1.0]. *)
Definition _search_source (w : World) (source query : string)
  : M (option string) :=
  if String.eqb source "nasa" then
    r <- retry_with_backoff w (_search_nasa w query) 3 1 "nasa" ;;
    ret (returned_url r)
  else if String.eqb source "pexels" then
    r <- retry_with_backoff w (_search_pexels w query) 3 1 "pexels" ;;
    ret (returned_url r)
  else if String.eqb source "pixabay" then
    r <- retry_with_backoff w (_search_pixabay w query) 3 1 "pixabay" ;;
    ret (returned_url r)
  else if String.eqb source "unsplash" then
    r <- retry_with_backoff w (_search_unsplash w query) 3 1 "unsplash" ;;
    ret (returned_url r)
  else if String.eqb source "giphy" then
    r <- retry_with_backoff w (_search_giphy w query) 3 1 "giphy" ;;
    ret (returned_url r)
  else ret None.

(** [if url:] *)
Definition truthy (url : option string) : bool :=
  match url with
  | Some (String _ _) => true
  | _ => false
  end.

Definition search_order (prefer_video : bool) : list string :=
  if prefer_video then ["pixabay"; "nasa"; "pexels"; "giphy"]%string
  else ["nasa"; "pixabay"; "pexels"; "unsplash"]%string.

(** One iteration of [for source in search_order]: [Some url] stands for
    [return url], [None] for going on to the next source. *)
Definition try_source (w : World) (query source : string) : M (option string) :=
  open <- cb_is_open w source ;;
  if open : bool then ret None
  else
    health <- db_get_api_health w source 30 ;;
    if Qltb (success_rate health) (3 # 10) then ret None
    else
      try_except
        (url <- _search_source w source query ;;
         ret (if truthy url then url else None))
        (fun _ => ret None).

Fixpoint search_sources (w : World) (query : string) (order : list string)
  : M (option string) :=
  match order with
  | [] => ret None
  | source :: rest =>
      r <- try_source w query source ;;
      match r with
      | Some url => ret (Some url)
      | None => search_sources w query rest
      end
  end.

(** [search_with_fallback] *)
Definition search_with_fallback (w : World) (query : string)
    (prefer_video : bool) : M (option string) :=
  cached <- db_get_cached_media w query None ;;
  match cached with
  | Some media => ret (Some (mc_media_url media))
  | None => search_sources w query (search_order prefer_video)
  end.

(** ** resource_manager.py *)

Record ResourceManager := mkResourceManager {
  cpu_count : Z;
  memory_total : Z;
  disk_path : string
}.

(** [ResourceManager.__init__]: [os.cpu_count() or 4]. *)
Definition ResourceManager_init (os_cpu_count : option Z) (total : Z)
  : ResourceManager :=
  {| cpu_count := match os_cpu_count with
                  | Some n => if n =? 0 then 4 else n
                  | None => 4
                  end;
     memory_total := total; disk_path := "/" |}.

(** [get_optimal_workers]; [available_memory] is
    [psutil.virtual_memory().available], in bytes. *)
Definition get_optimal_workers (self : ResourceManager) (available_memory : Z)
    (min_workers max_workers : Z) : Z :=
  let memory_gb := (inject_Z available_memory / inject_Z (1024 ^ 3))%Q in
  let workers :=
    if Qltb memory_gb 4 then min_workers
    else if Qltb memory_gb 8 then Z.min (cpu_count self / 2) max_workers
    else Z.min (cpu_count self) max_workers in
  Z.max min_workers workers.

(** ** Vocabulary of the properties *)

(** A failure count never goes below zero. *)
Definition counts_nonneg (cb : CircuitBreaker) : Prop :=
  forall source n, failures cb !! source = Some n -> 0 <= n.

(** Every character of [s] satisfies [P]. *)
Fixpoint all_chars (P : ascii -> bool) (s : string) : bool :=
  match s with
  | EmptyString => true
  | String c s' => P c && all_chars P s'
  end.


(** [r] does not rank above [m]: a lower quality score, or the same score
    and a use count that is not higher. *)
Definition outranked_by (r m : MediaRow) : Prop :=
  mc_quality_score r < mc_quality_score m
  \/ (mc_quality_score r = mc_quality_score m /\ mc_use_count r <= mc_use_count m).

(** The entry [r] after one more use at time [now]. *)
Definition used_once (r : MediaRow) (now : Z) : MediaRow :=
  {| mc_id := mc_id r; mc_query := mc_query r; mc_source := mc_source r;
     mc_media_url := mc_media_url r; mc_local_path := mc_local_path r;
     mc_file_hash := mc_file_hash r; mc_media_type := mc_media_type r;
     mc_resolution := mc_resolution r; mc_file_size := mc_file_size r;
     mc_quality_score := mc_quality_score r;
     mc_use_count := mc_use_count r + 1; mc_last_used_at := Some now;
     mc_expires_at := mc_expires_at r |}.

(** The ranking key of a looked-up entry. *)
Definition rank_of (r : MediaRow) : Z * Z := (mc_quality_score r, mc_use_count r).

(** A call-log row of [source] inside the window of [minutes] before [now]. *)
Definition in_window (now : Z) (source : string) (minutes : Z) (c : ApiRow) : Prop :=
  at_source c = source /\ now - minutes * 60 * 1000000 < at_created_at c.

(** The call-log rows of a failed and of a successful attempt. *)
Definition failure_row (source e : string) (row : ApiRow) : Prop :=
  at_source row = source /\ at_query row = EmptyString
  /\ at_success row = false /\ at_error_message row = Some e.

Definition success_row (source : string) (row : ApiRow) : Prop :=
  at_source row = source /\ at_query row = EmptyString
  /\ at_success row = true /\ at_error_message row = None.

(** The delays of [m] backoffs from attempt [a] on:
    [base_delay * 2 ** a], [base_delay * 2 ** (a + 1)], ... *)
Definition backoff_delays (base_delay : Q) (a : Z) (m : nat) : list Q :=
  (fun i => base_delay * inject_Z (2 ^ (a + Z.of_nat i)))%Q <$> seq 0 m.

(** What [retry_with_backoff] tells its caller after the [final] attempt. *)
Definition retry_answer {A} (final : Outcome A) : Outcome (option A) :=
  match final with
  | Returned v => Returned (Some v)
  | Raised e => Raised e
  end.

(** The effect of a run of attempts, from attempt [a] in state [st] to
    [st']: the attempts that raised [errs] one after the other, and the
    [final] one. Each attempt issued one request, logged one row and
    updated the breaker once; each failed attempt but a final one was
    followed by one sleep. *)
Definition retry_effects {A} (func : Operation A) (base_delay : Q)
    (source : string) (a : Z) (errs : list string) (final : Outcome A)
    (st st' : State) : Prop :=
  exists (fail_rows : list ApiRow) (last_row : ApiRow) (ts : list Q) (t : Q),
    requests st' = requests st ++ replicate (S (length errs)) (op_request func)
    /\ sleeps st' = sleeps st ++ backoff_delays base_delay a (length errs)
    /\ api_tracking (db st') = api_tracking (db st) ++ fail_rows ++ [last_row]
    /\ media_cache (db st') = media_cache (db st)
    /\ Forall2 (failure_row source) errs fail_rows
    /\ match final with
       | Returned _ => success_row source last_row
       | Raised e => failure_row source e last_row
       end
    /\ length ts = length errs
    /\ circuit_breaker st' =
       match final with
       | Returned _ =>
           record_success (record_failures (circuit_breaker st) source ts) source
       | Raised _ =>
           record_failure (record_failures (circuit_breaker st) source ts) source t
       end.

(** The attempts a run makes on outcomes [f 0], [f 1], ... with [n]
    attempts allowed: those before the first that returns, [n] at most. *)
Definition attempts_made {A} (f : nat -> Outcome A) (n : nat)
    (errs : list string) (final : Outcome A) : Prop :=
  (forall i e, errs !! i = Some e -> f i = Raised e)
  /\ f (length errs) = final
  /\ (length errs < n)%nat
  /\ (forall e, final = Raised e -> S (length errs) = n).

(** The cache has no live entry for the query when [search_with_fallback]
    looks it up in state [st]. *)
Definition cache_miss (w : World) (query : string) (st : State) : Prop :=
  fst (get_cached_media (db st) (datetime_now w (clock_reads st))
                        (datetime_now w (S (clock_reads st))) query None) = None.

(** The circuit of [source] is open when checked in state [st]. *)
Definition circuit_open (w : World) (source : string) (st : State) : Prop :=
  fst (is_open (circuit_breaker st) source (time_time w (clock_reads st))) = true.

(** The success rate of [source] over the 30 minutes before the health
    check that follows the circuit check of state [st] is below 0.3. *)
Definition unhealthy (w : World) (source : string) (st : State) : Prop :=
  (success_rate
     (get_api_health (db st)
        (datetime_now w (clock_reads (snd (cb_is_open w source st)))) source 30)
   < 3 # 10)%Q.

(** Between [st] and [st'] no provider was called, nothing was logged or
    cached, and the process did not sleep. *)
Definition no_provider_call (st st' : State) : Prop :=
  requests st' = requests st /\ sleeps st' = sleeps st /\ db st' = db st.

(** A provider call issued after state [st], among the requests [new],
    returned the non-empty [url]. *)
Definition yielded (w : World) (query : string) (order : list string)
    (st : State) (new : list Request) (url : string) : Prop :=
  url <> EmptyString
  /\ exists i source,
       source ∈ order
       /\ new !! i = Some {| req_source := source; req_query := query |}
       /\ provider w source query (length (requests st) + i) = Returned (Some url).

(** A world for examples: the clocks advance by one second per access; the
    providers fail with [HTTP 503] for the first [down] requests issued and
    then answer with [answer]. *)
Definition example_world (down : nat) (answer : option string) : World :=
  {| time_time := fun k => inject_Z (Z.of_nat k);
     datetime_now := fun k => Z.of_nat k * 1000000;
     provider := fun _ _ k =>
       if (k <? down)%nat then Raised "HTTP 503"%string else Returned answer |}.

(** A fresh [APIManager] over a store with the given media cache. *)
Definition example_state (cache : list MediaRow) : State :=
  {| db := {| media_cache := cache; api_tracking := [];
              media_cache_defaults := fun rows _ =>
                {| new_id := Z.of_nat (length rows); new_use_count := 0;
                   new_last_used_at := None |} |};
     circuit_breaker := CircuitBreaker_default;
     clock_reads := 0; requests := []; sleeps := [] |}.

(** The sources [_search_source] has a provider function for. *)
Definition known_sources : list string :=
  ["nasa"; "pexels"; "pixabay"; "unsplash"; "giphy"]%string.

(** The cache lookup of [search_with_fallback] in state [st] finds [media]. *)
Definition cache_hit (w : World) (query : string) (st : State)
    (media : MediaRow) : Prop :=
  fst (get_cached_media (db st) (datetime_now w (clock_reads st))
                        (datetime_now w (S (clock_reads st))) query None)
  = Some media.

(** ** Vocabulary of the further properties *)

(** The source a call on the breaker is about. *)
Definition call_source (c : breaker_call) : string :=
  match c with
  | CallIsOpen s _ | CallRecordSuccess s | CallRecordFailure s _ => s
  end.

(** The number of [record_failure] calls for [source] in a history. *)
Fixpoint failures_recorded (source : string) (cs : list breaker_call) : Z :=
  match cs with
  | [] => 0
  | CallRecordFailure s _ :: cs' =>
      (if String.eqb s source then 1 else 0) + failures_recorded source cs'
  | _ :: cs' => failures_recorded source cs'
  end.

(** The calls a client can make on the media cache, and a store's history. *)
Inductive store_call :=
| CallSave (now : Z)
    (query source media_url local_path file_hash media_type : string)
    (resolution : option string) (file_size quality_score : Z)
| CallLookup (now now' : Z) (query : string) (source : option string)
| CallCleanup (now : Z).

Definition store_step (db : DatabaseClient) (c : store_call) : DatabaseClient :=
  match c with
  | CallSave now query source media_url local_path file_hash media_type
             resolution file_size quality_score =>
      snd (save_media_cache db now query source media_url local_path file_hash
                            media_type resolution file_size quality_score)
  | CallLookup now now' query source =>
      snd (get_cached_media db now now' query source)
  | CallCleanup now => cleanup_expired_cache db now
  end.

Definition store_run (db : DatabaseClient) (cs : list store_call) : DatabaseClient :=
  fold_left store_step cs db.

(** A store with no rows, over a schema with the given column defaults. *)
Definition empty_store (defaults : list MediaRow -> Z -> MediaDefaults)
  : DatabaseClient :=
  {| media_cache := []; api_tracking := []; media_cache_defaults := defaults |}.

(** * Properties *)

(** ** Rationals *)

Lemma Qltb_lt (x y : Q) : Qltb x y = true <-> (x < y)%Q.
Proof.
  unfold Qltb. rewrite negb_true_iff, <- not_true_iff_false, Qle_bool_iff.
  split; [apply Qnot_le_lt | apply Qlt_not_le].
Qed.

Lemma Qltb_ge (x y : Q) : Qltb x y = false <-> (y <= x)%Q.
Proof.
  unfold Qltb. rewrite negb_false_iff. apply Qle_bool_iff.
Qed.

(** ** Circuit breaker *)

Section Breaker.

Implicit Types (cb : CircuitBreaker) (source : string) (now t : Q).

Lemma failure_count_lookup cb source n :
  failures cb !! source = Some n -> failure_count cb source = n.
Proof. unfold failure_count. intros ->. reflexivity. Qed.

Lemma is_open_true_iff cb source now :
  fst (is_open cb source now) = true <->
  exists n, failures cb !! source = Some n /\ failure_threshold cb <= n /\
            (now - last_failure cb source < inject_Z (timeout cb))%Q.
Proof.
  unfold is_open. destruct (failures cb !! source) as [n|] eqn:E.
  - destruct (Z.leb_spec (failure_threshold cb) n) as [Hle|Hlt].
    + destruct (Qltb _ _) eqn:Hq; simpl.
      * apply Qltb_lt in Hq. split; [|done]. intros _. exists n. done.
      * apply Qltb_ge in Hq. split; [done|]. intros (m & Hm & _ & Hlt).
        apply Qlt_not_le in Hlt. contradiction.
    + simpl. split; [done|]. intros (m & Hm & Hth & _).
      assert (m = n) by congruence. lia.
  - simpl. split; [done|]. intros (m & Hm & _). discriminate.
Qed.

Lemma is_open_true_unchanged cb source now :
  fst (is_open cb source now) = true -> is_open cb source now = (true, cb).
Proof.
  unfold is_open. destruct (failures cb !! source); [|done].
  destruct (_ <=? _); [|done]. destruct (Qltb _ _); done.
Qed.

Lemma is_open_config cb source now :
  failure_threshold (snd (is_open cb source now)) = failure_threshold cb /\
  timeout (snd (is_open cb source now)) = timeout cb.
Proof.
  unfold is_open. destruct (failures cb !! source); [|done].
  destruct (_ <=? _); [|done]. destruct (Qltb _ _); done.
Qed.

Lemma counts_nonneg_count cb source : counts_nonneg cb -> 0 <= failure_count cb source.
Proof.
  intros H. unfold failure_count.
  destruct (failures cb !! source) as [n|] eqn:E; simpl; [eauto | lia].
Qed.

Lemma counts_nonneg_zero cb source :
  counts_nonneg cb -> counts_nonneg (set_failures cb (<[source := 0]> (failures cb))).
Proof.
  intros H s n. simpl. rewrite lookup_insert. case_decide.
  - intros [= <-]. lia.
  - apply H.
Qed.

Lemma breaker_step_invariant cb c :
  counts_nonneg cb -> counts_nonneg (breaker_step cb c).
Proof.
  intros H. destruct c as [s now | s | s now]; simpl.
  - unfold is_open. destruct (failures cb !! s); [|done].
    destruct (_ <=? _); [|done]. destruct (Qltb _ _); [done|].
    by apply counts_nonneg_zero.
  - by apply counts_nonneg_zero.
  - intros s' n. simpl. rewrite lookup_insert. case_decide.
    + intros [= <-]. pose proof (counts_nonneg_count cb s H). lia.
    + apply H.
Qed.

Lemma breaker_step_config cb c :
  failure_threshold (breaker_step cb c) = failure_threshold cb /\
  timeout (breaker_step cb c) = timeout cb.
Proof.
  destruct c; simpl; [apply is_open_config | done | done].
Qed.

Lemma breaker_run_invariant cb cs :
  counts_nonneg cb ->
  counts_nonneg (breaker_run cb cs) /\
  failure_threshold (breaker_run cb cs) = failure_threshold cb /\
  timeout (breaker_run cb cs) = timeout cb.
Proof.
  unfold breaker_run. revert cb. induction cs as [|c cs IH]; intros cb H; simpl.
  - done.
  - destruct (IH (breaker_step cb c) (breaker_step_invariant cb c H)) as (? & -> & ->).
    split; [done|]. apply breaker_step_config.
Qed.

Lemma record_failures_snoc cb source ts t :
  record_failures cb source (ts ++ [t]) =
  record_failure (record_failures cb source ts) source t.
Proof. unfold record_failures. by rewrite fold_left_app. Qed.

Lemma record_failure_lookup cb source t :
  failures (record_failure cb source t) !! source = Some (failure_count cb source + 1).
Proof. simpl. apply lookup_insert_eq. Qed.

Lemma record_failure_last cb source t :
  last_failure (record_failure cb source t) source = t.
Proof. unfold last_failure. simpl. by rewrite lookup_insert_eq. Qed.

Lemma record_failures_config cb source ts :
  failure_threshold (record_failures cb source ts) = failure_threshold cb /\
  timeout (record_failures cb source ts) = timeout cb.
Proof.
  induction ts as [|t ts IH] using rev_ind; [done|].
  rewrite record_failures_snoc. simpl. done.
Qed.

Lemma record_failures_count cb source ts :
  failure_count (record_failures cb source ts) source =
  failure_count cb source + Z.of_nat (length ts).
Proof.
  induction ts as [|t ts IH] using rev_ind.
  - simpl. lia.
  - rewrite record_failures_snoc, length_app. simpl length.
    rewrite (failure_count_lookup _ _ _ (record_failure_lookup _ _ _)). lia.
Qed.

(** After at least one failure the source is on record, with the clock
    reading of the last one. *)
Lemma record_failures_last cb source ts t :
  last ts = Some t ->
  failures (record_failures cb source ts) !! source
    = Some (failure_count cb source + Z.of_nat (length ts)) /\
  last_failure (record_failures cb source ts) source = t.
Proof.
  destruct ts as [|t' ts] using rev_ind; [done|].
  rewrite last_snoc. intros [= ->].
  rewrite record_failures_snoc, record_failure_lookup, record_failure_last.
  rewrite record_failures_count, length_app. simpl length.
  split; [f_equal; lia | done].
Qed.


End Breaker.



(** C2, as stated, fails: the default breaker (threshold 5), opened by five
    failures of one source, is checked after the timeout, which resets the
    count to 0; one further failure then leaves the circuit closed. *)
Lemma breaker_one_failure_after_reset_stays_closed :
  let cb := record_failures CircuitBreaker_default "nasa" [1; 2; 3; 4; 5]%Q in
  failure_threshold cb <= failure_count cb "nasa"
  /\ (inject_Z (timeout cb) <= 65 - last_failure cb "nasa")%Q
  /\ fst (is_open cb "nasa" 65) = false
  /\ failure_count (snd (is_open cb "nasa" 65)) "nasa" = 0
  /\ fst (is_open (record_failure (snd (is_open cb "nasa" 65)) "nasa" 66)
                  "nasa" 66) = false.
Proof. vm_compute. repeat split; discriminate. Qed.

(** C2, amended. For a source on record with a failure count at least the
    threshold, an [is_open] check made once the timeout has elapsed since
    the last failure returns false and sets the count to 0, as a
    [record_success] would; after that reset, and any number (at least one)
    of further consecutive failures, the circuit is open within the timeout
    exactly when that number reaches the threshold: a single failure
    re-opens it only for a threshold of at most 1. *)
Theorem breaker_time_reset
    (cb : CircuitBreaker) (source : string) (n : Z) (now : Q) :
  failures cb !! source = Some n ->
  failure_threshold cb <= n ->
  (inject_Z (timeout cb) <= now - last_failure cb source)%Q ->
  let cb1 := snd (is_open cb source now) in
  is_open cb source now = (false, record_success cb source)
  /\ failure_count cb1 source = 0
  /\ (forall ts t now',
        last ts = Some t -> (now' - t < inject_Z (timeout cb))%Q ->
        (fst (is_open (record_failures cb1 source ts) source now') = true
         <-> failure_threshold cb <= Z.of_nat (length ts)))
  /\ (forall t, fst (is_open (record_failure cb1 source t) source t) = true
                <-> failure_threshold cb <= 1 /\ 0 < timeout cb).
Proof.
  intros Hn Hle Hel cb1.
  assert (Hres : is_open cb source now = (false, record_success cb source)).
  { unfold is_open. rewrite Hn.
    destruct (Z.leb_spec (failure_threshold cb) n); [|lia].
    apply Qltb_ge in Hel. by rewrite Hel. }
  assert (Hcb1 : cb1 = record_success cb source) by (unfold cb1; by rewrite Hres).
  assert (Hzero : failure_count cb1 source = 0).
  { rewrite Hcb1. unfold failure_count. simpl. by rewrite lookup_insert_eq. }
  assert (Hcfg : failure_threshold cb1 = failure_threshold cb
                 /\ timeout cb1 = timeout cb) by (by rewrite Hcb1).
  destruct Hcfg as [Hth1 Hto1].
  assert (Hmany : forall ts t now',
            last ts = Some t -> (now' - t < inject_Z (timeout cb))%Q ->
            (fst (is_open (record_failures cb1 source ts) source now') = true
             <-> failure_threshold cb <= Z.of_nat (length ts))).
  { intros ts t now' Hlast Hlt. rewrite is_open_true_iff.
    destruct (record_failures_last cb1 source ts t Hlast) as [Hlk Hlf].
    destruct (record_failures_config cb1 source ts) as [-> ->].
    rewrite Hlk, Hlf, Hzero, Hth1, Hto1. split.
    - intros (m & [= <-] & Hm & _). lia.
    - intros Hm. eexists. split; [reflexivity|]. split; [lia | done]. }
  split; [done|]. split; [done|]. split; [done|].
  intros t. rewrite is_open_true_iff. simpl.
  rewrite lookup_insert_eq, Hzero, Hth1, Hto1.
  unfold last_failure. simpl. rewrite lookup_insert_eq. simpl.
  assert (Hq : (t - t < inject_Z (timeout cb))%Q <-> 0 < timeout cb).
  { change 0 with 0%Z. rewrite Zlt_Qlt. change (inject_Z 0) with 0%Q.
    split; intros; lra. }
  rewrite <- Hq. split.
  - intros (m & [= <-] & Hm & Hlt). split; [lia | done].
  - intros [Hm Hlt]. eexists. split; [reflexivity|]. split; [lia | done].
Qed.

(** The default breaker: after the reset one failure does not re-open the
    circuit, five do. *)
Lemma breaker_time_reset_witness :
  let cb := record_failures CircuitBreaker_default "nasa" [1; 2; 3; 4; 5]%Q in
  is_open cb "nasa" 65 = (false, record_success cb "nasa")
  /\ fst (is_open (record_failures (snd (is_open cb "nasa" 65)) "nasa"
                                   [66; 67; 68; 69; 70]%Q) "nasa" 71) = true.
Proof.
  intros cb.
  destruct (breaker_time_reset cb "nasa" 5 65%Q) as (H1 & _ & H2 & _).
  - reflexivity.
  - vm_compute. discriminate.
  - vm_compute. discriminate.
  - split; [exact H1|].
    apply (H2 [66; 67; 68; 69; 70]%Q 70%Q 71%Q); [reflexivity | reflexivity |].
    vm_compute. discriminate.
Defined.

(** ** Query normalization *)

Section Normalize.

Local Open Scope string_scope.
Local Arguments String.append !_ _ / : simpl nomatch.

Lemma str_app_nil_r (s : string) : s ++ EmptyString = s.
Proof. induction s as [|c s IH]; simpl; [done | by rewrite IH]. Qed.

Lemma str_app_assoc (a b c : string) : (a ++ b) ++ c = a ++ (b ++ c).
Proof. induction a as [|x a IH]; simpl; [done | by rewrite IH]. Qed.

Lemma lower_char_idem (c : ascii) : lower_char (lower_char c) = lower_char c.
Proof. destruct c as [[] [] [] [] [] [] [] []]; reflexivity. Qed.


Lemma lower_char_space (c : ascii) : isspace c = true -> lower_char c = c.
Proof. destruct c as [[] [] [] [] [] [] [] []]; (reflexivity || discriminate). Qed.


Lemma lower_idem (s : string) : lower (lower s) = lower s.
Proof.
  induction s as [|c s IH]; simpl; [done|]. by rewrite lower_char_idem, IH.
Qed.


(** A run without whitespace is read into the current word. *)
Lemma split_go_word (cur w rest : string) :
  all_chars (fun c => negb (isspace c)) w = true ->
  split_go cur (w ++ rest) = split_go (cur ++ w) rest.
Proof.
  revert cur. induction w as [|x w IH]; intros cur Hw; simpl.
  - by rewrite str_app_nil_r.
  - simpl in Hw. apply andb_true_iff in Hw as [Hx Hw].
    apply negb_true_iff in Hx. rewrite Hx, IH by done.
    by rewrite str_app_assoc.
Qed.

Lemma all_chars_app (P : ascii -> bool) (a b : string) :
  all_chars P (a ++ b) = all_chars P a && all_chars P b.
Proof.
  induction a as [|x a IH]; simpl; [done|]. by rewrite IH, andb_assoc.
Qed.

Lemma all_chars_lower (s : string) :
  all_chars (fun c => bool_decide (lower_char c = c)) (lower s) = true.
Proof.
  induction s as [|c s IH]; simpl; [done|].
  rewrite IH, andb_true_r. apply bool_decide_eq_true, lower_char_idem.
Qed.

(** The words [split] yields keep every property of the characters read. *)
Lemma split_go_all (P : ascii -> bool) (cur s : string) :
  all_chars P cur = true -> all_chars P s = true ->
  Forall (fun w => all_chars P w = true) (split_go cur s).
Proof.
  revert cur. induction s as [|c s IH]; intros cur Hcur Hs; simpl.
  - destruct cur; [constructor | by repeat constructor].
  - simpl in Hs. apply andb_true_iff in Hs as [Hc Hs].
    destruct (isspace c).
    + destruct cur; [by apply IH | constructor; [done | by apply IH]].
    + apply IH; [|done]. rewrite all_chars_app, Hcur. simpl. by rewrite Hc.
Qed.

(** They hold no whitespace and are not empty. *)
Lemma split_go_words (cur s : string) :
  all_chars (fun c => negb (isspace c)) cur = true ->
  Forall (fun w => w <> EmptyString /\ all_chars (fun c => negb (isspace c)) w = true)
         (split_go cur s).
Proof.
  revert cur. induction s as [|c s IH]; intros cur Hcur; simpl.
  - destruct cur; [constructor | by repeat constructor].
  - destruct (isspace c) eqn:Hc.
    + destruct cur; [by apply IH | constructor; [done | by apply IH]].
    + apply IH. rewrite all_chars_app, Hcur. simpl. by rewrite Hc.
Qed.

Lemma lower_fixed (s : string) :
  all_chars (fun c => bool_decide (lower_char c = c)) s = true -> lower s = s.
Proof.
  induction s as [|c s IH]; simpl; [done|]. intros H.
  apply andb_true_iff in H as [Hc Hs]. apply bool_decide_eq_true in Hc.
  by rewrite Hc, IH.
Qed.

Lemma join_cons (sep w w' : string) (ws : list string) :
  join sep (w :: w' :: ws) = w ++ sep ++ join sep (w' :: ws).
Proof. reflexivity. Qed.

Lemma all_chars_join (P : ascii -> bool) (ws : list string) :
  P " "%char = true ->
  Forall (fun w => all_chars P w = true) ws ->
  all_chars P (join " " ws) = true.
Proof.
  intros Hsp. induction 1 as [|w ws Hw Hws IH]; [done|].
  destruct ws as [|w' ws']; [done|].
  rewrite join_cons, all_chars_app, Hw.
  change (all_chars P (" " ++ ?s)) with (P " "%char && all_chars P s).
  by rewrite Hsp, IH.
Qed.

(** Splitting what [join] built from words gives the words back. *)
Lemma split_join (ws : list string) :
  Forall (fun w => w <> EmptyString /\ all_chars (fun c => negb (isspace c)) w = true) ws ->
  split (join " " ws) = ws.
Proof.
  unfold split. induction 1 as [|w ws [Hne Hw] Hws IH]; [done|].
  destruct ws as [|w' ws'].
  - simpl join. rewrite <- (str_app_nil_r w) at 1.
    rewrite split_go_word by done. simpl. by destruct w.
  - rewrite join_cons, split_go_word by done.
    change (" " ++ ?s) with (String " "%char s).
    change (split_go (EmptyString ++ w) (String " "%char ?s))
      with (match w with EmptyString => split_go EmptyString s | _ => w :: split_go EmptyString s end).
    rewrite IH. by destruct w.
Qed.


Lemma _normalize_query_idempotent (q : string) :
  _normalize_query (_normalize_query q) = _normalize_query q.
Proof.
  unfold _normalize_query.
  assert (Hw := split_go_words EmptyString (lower q) eq_refl).
  assert (Hl := split_go_all _ EmptyString (lower q) eq_refl (all_chars_lower q)).
  fold (split (lower q)) in Hw, Hl.
  rewrite (lower_fixed (join " " (split (lower q)))).
  - by rewrite split_join.
  - by apply all_chars_join.
Qed.

End Normalize.

(** ** Content cache *)

Section Cache.

Implicit Types (r m : MediaRow) (rows : list MediaRow) (db : DatabaseClient).

Lemma ranks_before_spec a b : ranks_before a b = true <-> outranked_by b a.
Proof.
  unfold ranks_before, outranked_by.
  rewrite orb_true_iff, andb_true_iff, Z.ltb_lt, Z.eqb_eq, Z.leb_le. tauto.
Qed.

Lemma outranked_by_total a b : outranked_by a b \/ outranked_by b a.
Proof. unfold outranked_by. lia. Qed.

Lemma outranked_by_trans a b c :
  outranked_by a b -> outranked_by b c -> outranked_by a c.
Proof. unfold outranked_by. lia. Qed.

Lemma outranked_by_refl a : outranked_by a a.
Proof. unfold outranked_by. lia. Qed.

Lemma outranked_by_antisym a b :
  outranked_by a b -> outranked_by b a -> rank_of a = rank_of b.
Proof. unfold outranked_by, rank_of. intros. f_equal; lia. Qed.

Lemma insert_ranked_perm r rows : insert_ranked r rows ≡ₚ r :: rows.
Proof.
  induction rows as [|x xs IH]; simpl; [done|].
  destruct (ranks_before r x); [done|]. rewrite IH. apply Permutation_swap.
Qed.

Lemma order_ranked_perm rows : order_ranked rows ≡ₚ rows.
Proof.
  induction rows as [|x xs IH]; simpl; [done|].
  by rewrite insert_ranked_perm, IH.
Qed.

(** The first row of the ordering ranks at least as high as every row. *)
Lemma insert_ranked_head r rows m :
  (forall x, head rows = Some x -> forall y, y ∈ rows -> outranked_by y x) ->
  head (insert_ranked r rows) = Some m ->
  forall y, y ∈ r :: rows -> outranked_by y m.
Proof.
  intros Hrows. destruct rows as [|x xs]; simpl.
  - intros [= <-] y Hy. apply list_elem_of_singleton in Hy as ->.
    apply outranked_by_refl.
  - specialize (Hrows x eq_refl).
    destruct (ranks_before r x) eqn:E; simpl; intros [= <-] y Hy.
    + apply ranks_before_spec in E. apply elem_of_cons in Hy as [-> | Hy].
      * apply outranked_by_refl.
      * eapply outranked_by_trans; [by apply Hrows | done].
    + apply elem_of_cons in Hy as [-> | Hy]; [|by apply Hrows].
      destruct (outranked_by_total r x) as [H | H]; [done|].
      apply ranks_before_spec in H. congruence.
Qed.

Lemma order_ranked_head rows m :
  head (order_ranked rows) = Some m ->
  forall y, y ∈ rows -> outranked_by y m.
Proof.
  revert m. induction rows as [|x xs IH]; intros m; simpl; [done|].
  intros Hm y Hy. eapply insert_ranked_head; [| exact Hm |].
  - intros x' Hx' y' Hy'. apply (IH x' Hx').
    by rewrite <- (order_ranked_perm xs).
  - rewrite elem_of_cons in Hy |- *. destruct Hy as [-> | Hy]; [by left | right].
    by rewrite order_ranked_perm.
Qed.

Lemma take_one_head {A} (l : list A) : take 1 l = option_list (head l).
Proof. destruct l; [done|]. simpl. by rewrite take_0. Qed.

Lemma bump_usage_self m now :
  bump_usage (mc_id m) now (mc_use_count m + 1) m = used_once m now.
Proof. unfold bump_usage, used_once. by rewrite Z.eqb_refl. Qed.

Lemma bump_usage_other id now count r :
  mc_id r <> id -> bump_usage id now count r = r.
Proof.
  intros H. unfold bump_usage. by destruct (Z.eqb_spec (mc_id r) id).
Qed.

Lemma cache_candidate_spec nq now source r :
  cache_candidate nq now source r = true <->
  mc_query r = nq /\ now < mc_expires_at r /\ source_matches source r = true.
Proof.
  unfold cache_candidate.
  rewrite !andb_true_iff, String.eqb_eq, Z.ltb_lt. tauto.
Qed.

(** What a hit returns and does to the store. *)
Lemma get_cached_media_hit db now now' query source m db' :
  get_cached_media db now now' query source = (Some m, db') ->
  m ∈ media_cache db
  /\ cache_candidate (_normalize_query query) now source m = true
  /\ (forall r, r ∈ media_cache db ->
                cache_candidate (_normalize_query query) now source r = true ->
                outranked_by r m)
  /\ db' = set_media_cache db
             (bump_usage (mc_id m) now' (mc_use_count m + 1) <$> media_cache db).
Proof.
  unfold get_cached_media. rewrite take_one_head.
  destruct (head _) as [x|] eqn:Hhead; simpl; [|done].
  intros [= -> <-].
  assert (Hin : m ∈ filter
            (fun r => cache_candidate (_normalize_query query) now source r = true)
            (media_cache db)).
  { rewrite <- order_ranked_perm. by apply head_Some_elem_of. }
  apply list_elem_of_filter in Hin as [Hc Hin].
  repeat split; try done.
  intros r Hr Hrc. apply (order_ranked_head _ _ Hhead).
  by apply list_elem_of_filter.
Qed.

Lemma get_cached_media_miss db now now' query source db' :
  get_cached_media db now now' query source = (None, db') ->
  db' = db
  /\ forall r, r ∈ media_cache db ->
               cache_candidate (_normalize_query query) now source r = false.
Proof.
  unfold get_cached_media. rewrite take_one_head.
  destruct (head _) as [x|] eqn:Hhead; simpl; [done|].
  intros [= <-]. split; [done|]. intros r Hr.
  apply not_true_is_false. intros Hc.
  apply head_None in Hhead.
  assert (Hin : r ∈ order_ranked (filter
            (fun r => cache_candidate (_normalize_query query) now source r = true)
            (media_cache db))).
  { rewrite order_ranked_perm. by apply list_elem_of_filter. }
  rewrite Hhead in Hin. by apply elem_of_nil in Hin.
Qed.

(** A lookup finds something as soon as one row qualifies. *)
Lemma get_cached_media_finds db now now' query source r :
  r ∈ media_cache db ->
  cache_candidate (_normalize_query query) now source r = true ->
  exists m, fst (get_cached_media db now now' query source) = Some m.
Proof.
  intros Hr Hc.
  destruct (get_cached_media db now now' query source) as [[m|] db'] eqn:E.
  - by exists m.
  - apply get_cached_media_miss in E as [_ E]. rewrite (E r Hr) in Hc. done.
Qed.

End Cache.

(** A first insert of some content appends one row. *)
Lemma save_media_cache_fresh
    (db : DatabaseClient) (now : Z)
    (query source media_url local_path file_hash media_type : string)
    (resolution : option string) (file_size quality_score : Z) :
  (forall e, e ∈ media_cache db -> mc_file_hash e <> file_hash) ->
  exists row,
    fst (save_media_cache db now query source media_url local_path file_hash
                          media_type resolution file_size quality_score)
    = WholeRow row
    /\ media_cache
         (snd (save_media_cache db now query source media_url local_path
                                file_hash media_type resolution file_size
                                quality_score))
       = media_cache db ++ [row]
    /\ api_tracking
         (snd (save_media_cache db now query source media_url local_path
                                file_hash media_type resolution file_size
                                quality_score))
       = api_tracking db
    /\ mc_file_hash row = file_hash
    /\ mc_expires_at row = now + 30 * 86400 * 1000000
    /\ mc_query row = _normalize_query query
    /\ mc_source row = source /\ mc_media_url row = media_url
    /\ mc_local_path row = local_path /\ mc_media_type row = media_type
    /\ mc_resolution row = resolution /\ mc_file_size row = file_size
    /\ mc_quality_score row = quality_score.
Proof.
  intros Hfresh. unfold save_media_cache.
  destruct (filter (fun r => mc_file_hash r = file_hash) (media_cache db))
    as [|x xs] eqn:Hf; simpl.
  - eexists. repeat split.
  - assert (Hx : x ∈ filter (fun r => mc_file_hash r = file_hash) (media_cache db))
      by (rewrite Hf; left).
    apply list_elem_of_filter in Hx as [Hh Hx]. by destruct (Hfresh x Hx).
Qed.

(** An insert of content already stored answers with an id and changes
    nothing. *)
Lemma save_media_cache_existing
    (db : DatabaseClient) (now : Z)
    (query source media_url local_path file_hash media_type : string)
    (resolution : option string) (file_size quality_score : Z) :
  (exists e, e ∈ media_cache db /\ mc_file_hash e = file_hash) ->
  snd (save_media_cache db now query source media_url local_path file_hash
                        media_type resolution file_size quality_score) = db
  /\ exists e, e ∈ media_cache db /\ mc_file_hash e = file_hash
       /\ fst (save_media_cache db now query source media_url local_path
                                file_hash media_type resolution file_size
                                quality_score) = IdOnly (mc_id e).
Proof.
  intros (e & He & Hh). unfold save_media_cache.
  destruct (filter (fun r => mc_file_hash r = file_hash) (media_cache db))
    as [|x xs] eqn:Hf; simpl.
  - exfalso.
    assert (Hin : e ∈ filter (fun r => mc_file_hash r = file_hash) (media_cache db))
      by (by apply list_elem_of_filter).
    rewrite Hf in Hin. by apply elem_of_nil in Hin.
  - assert (Hx : x ∈ filter (fun r => mc_file_hash r = file_hash) (media_cache db))
      by (rewrite Hf; left).
    apply list_elem_of_filter in Hx as [Hh' Hx]. split; [done|]. by exists x.
Qed.




(** C4. Cache lookup. A hit returns a stored entry for the normalized query
    (and the source, when one is asked for) whose expiry is later than the
    time of the lookup; no qualifying entry has a higher quality score, or
    the same score and a higher use count; in the store the entry's use
    count is one higher and its last-used time is the time of the update,
    the rows of other ids being untouched. A miss leaves the store as it
    is and happens only when no entry qualifies. The rank of the entry
    found does not depend on the order of the rows. *)
Theorem cache_lookup
    (db : DatabaseClient) (now now' : Z) (query : string) (source : option string) :
  let qualifies r :=
    mc_query r = _normalize_query query /\ now < mc_expires_at r
    /\ source_matches source r = true in
  match get_cached_media db now now' query source with
  | (Some media, db') =>
      media ∈ media_cache db /\ qualifies media
      /\ (forall r, r ∈ media_cache db -> qualifies r -> outranked_by r media)
      /\ (exists i, media_cache db !! i = Some media
                    /\ media_cache db' !! i = Some (used_once media now'))
      /\ (forall i r, media_cache db !! i = Some r -> mc_id r <> mc_id media ->
                      media_cache db' !! i = Some r)
      /\ length (media_cache db') = length (media_cache db)
      /\ api_tracking db' = api_tracking db
  | (None, db') =>
      db' = db /\ forall r, r ∈ media_cache db -> ~ qualifies r
  end
  /\ forall rows, rows ≡ₚ media_cache db ->
       rank_of <$> fst (get_cached_media (set_media_cache db rows) now now'
                                         query source)
       = rank_of <$> fst (get_cached_media db now now' query source).
Proof.
  intros qualifies.
  assert (Hq : forall r, qualifies r <->
                 cache_candidate (_normalize_query query) now source r = true).
  { intros r. symmetry. apply cache_candidate_spec. }
  split.
  - destruct (get_cached_media db now now' query source) as [[m|] db'] eqn:E.
    + apply get_cached_media_hit in E as (Hin & Hc & Hmax & ->).
      split; [done|]. split; [by apply Hq|].
      split; [intros r Hr Hr'; apply Hmax; [done | by apply Hq]|].
      simpl. split; [|split; [|split; [|done]]].
      * apply list_elem_of_lookup in Hin as [i Hi]. exists i. split; [done|].
        by rewrite list_lookup_fmap, Hi, <- bump_usage_self.
      * intros i r Hi Hne. rewrite list_lookup_fmap, Hi. simpl.
        by rewrite bump_usage_other.
      * apply length_fmap.
    + apply get_cached_media_miss in E as [-> Hnone]. split; [done|].
      intros r Hr Hr'. apply Hq in Hr'. by rewrite (Hnone r Hr) in Hr'.
  - intros rows Hperm.
    destruct (get_cached_media (set_media_cache db rows) now now' query source)
      as [[m1|] db1] eqn:E1;
      destruct (get_cached_media db now now' query source)
      as [[m2|] db2] eqn:E2; simpl; [| | |done].
    + apply get_cached_media_hit in E1 as (Hin1 & Hc1 & Hmax1 & _).
      apply get_cached_media_hit in E2 as (Hin2 & Hc2 & Hmax2 & _).
      simpl in Hin1, Hmax1. f_equal. apply outranked_by_antisym.
      * apply Hmax2; [by rewrite <- Hperm | done].
      * apply Hmax1; [by rewrite Hperm | done].
    + apply get_cached_media_hit in E1 as (Hin1 & Hc1 & _).
      apply get_cached_media_miss in E2 as [_ Hnone]. simpl in Hin1.
      rewrite Hperm in Hin1. by rewrite (Hnone m1 Hin1) in Hc1.
    + apply get_cached_media_hit in E2 as (Hin2 & Hc2 & _).
      apply get_cached_media_miss in E1 as [_ Hnone]. simpl in Hnone.
      rewrite <- Hperm in Hin2. by rewrite (Hnone m2 Hin2) in Hc2.
Qed.

(** Three entries for one query, the best of them expired: the lookup
    returns the better of the two live ones, whatever the storage order. *)
Lemma cache_lookup_witness :
  let entry id quality uses expires :=
    {| mc_id := id; mc_query := "mars rover"; mc_source := "nasa";
       mc_media_url := "u"; mc_local_path := "p"; mc_file_hash := "h";
       mc_media_type := "image"; mc_resolution := None; mc_file_size := 1;
       mc_quality_score := quality; mc_use_count := uses;
       mc_last_used_at := None; mc_expires_at := expires |} in
  let rows := [entry 1 5 3 1000; entry 2 9 0 1000; entry 3 10 0 50] in
  let db := {| media_cache := rows; api_tracking := [];
               media_cache_defaults := fun _ _ =>
                 {| new_id := 4; new_use_count := 0; new_last_used_at := None |} |} in
  rank_of <$> fst (get_cached_media (set_media_cache db (reverse rows))
                                    100 101 " Mars   ROVER" None)
  = Some (9, 0).
Proof.
  intros entry rows db.
  destruct (cache_lookup db 100 101 " Mars   ROVER" None) as [_ Hperm].
  rewrite (Hperm (reverse rows)); [reflexivity|].
  apply reverse_Permutation.
Defined.



(** ** Health tracker *)

Lemma sum_Z_ones {A} (l : list A) : sum_Z ((fun _ => 1) <$> l) = Z.of_nat (length l).
Proof.
  induction l as [|x l IH]; [done|].
  rewrite fmap_cons. unfold sum_Z in *. simpl fold_right. rewrite IH.
  simpl length. lia.
Qed.

Lemma health_window_spec db now source minutes c :
  c ∈ health_window db now source minutes <->
  in_window now source minutes c /\ c ∈ api_tracking db.
Proof.
  unfold health_window, in_window, timedelta_minutes.
  by rewrite list_elem_of_filter.
Qed.

(** C8. Health tracker. With no call record of the source created within
    the trailing window, [get_api_health] reports a success rate of 1.0 and
    zero calls; otherwise the total is the number of records of the source
    in the window and the rate is the number of successful ones among them
    divided by that total. *)
Theorem api_health_rate (db : DatabaseClient) (now : Z) (source : string) (minutes : Z) :
  let health := get_api_health db now source minutes in
  let records := filter (in_window now source minutes) (api_tracking db) in
  let successes := filter (fun c => at_success c = true) records in
  ((forall c, c ∈ api_tracking db -> ~ in_window now source minutes c) ->
   success_rate health = 1%Q /\ total_calls health = 0)
  /\ ((exists c, c ∈ api_tracking db /\ in_window now source minutes c) ->
      total_calls health = Z.of_nat (length records)
      /\ success_rate health
         = (inject_Z (Z.of_nat (length successes))
            / inject_Z (Z.of_nat (length records)))%Q).
Proof.
  intros health records successes.
  assert (Hrec : health_window db now source minutes = records) by reflexivity.
  unfold health, get_api_health. rewrite Hrec.
  destruct records as [|c0 rest] eqn:E.
  - split; [done|]. intros (c & Hc & Hw). exfalso.
    assert (Hin : c ∈ health_window db now source minutes)
      by (by apply health_window_spec).
    rewrite Hrec in Hin. by apply elem_of_nil in Hin.
  - split.
    + intros Hnone. exfalso.
      assert (Hin : c0 ∈ health_window db now source minutes)
        by (rewrite Hrec; left).
      apply health_window_spec in Hin as [Hw Hin]. by apply (Hnone c0).
    + intros _. unfold success_rate, total_calls. split; [done|].
      by rewrite sum_Z_ones.
Qed.

(** A source never tried, and one with one success in four recent calls. *)
Lemma api_health_rate_witness :
  let call ok at_ := {| at_source := "nasa"; at_query := EmptyString; at_success := ok;
                        at_response_time_ms := 120; at_error_message := None;
                        at_created_at := at_ |} in
  let db := {| media_cache := [];
               api_tracking := [call true 10; call false 2000000000;
                                call true 2100000000; call false 2200000000;
                                call false 2300000000];
               media_cache_defaults := fun _ _ =>
                 {| new_id := 1; new_use_count := 0; new_last_used_at := None |} |} in
  success_rate (get_api_health db 2400000000 "pexels" 30) = 1%Q
  /\ total_calls (get_api_health db 2400000000 "nasa" 30) = 4
  /\ (success_rate (get_api_health db 2400000000 "nasa" 30) == 1 # 4)%Q.
Proof.
  intros call db.
  destruct (api_health_rate db 2400000000 "pexels" 30) as [Hnone _].
  destruct (api_health_rate db 2400000000 "nasa" 30) as [_ Hsome].
  split; [|split].
  - apply Hnone. intros c Hc [Hs _].
    repeat (apply elem_of_cons in Hc as [-> | Hc]; [discriminate|]).
    by apply elem_of_nil in Hc.
  - apply Hsome. exists (call false 2300000000).
    split; [do 4 right; left | split; [reflexivity | reflexivity]].
  - destruct Hsome as [_ ->].
    + exists (call false 2300000000).
      split; [do 4 right; left | split; [reflexivity | reflexivity]].
    + reflexivity.
Defined.

(** ** Resource governor *)

Lemma memory_gb_below (available k : Z) :
  Qltb (inject_Z available / inject_Z (1024 ^ 3)) (inject_Z k) = true
  <-> available < k * 1024 ^ 3.
Proof.
  rewrite Qltb_lt. unfold Qlt, Qdiv, Qmult, Qinv, inject_Z. simpl. lia.
Qed.

(** C9. Worker sizing. [get_optimal_workers] is a step function of the
    available memory: under 4 GB it returns [min_workers]; from 4 GB and
    under 8 GB it returns the smaller of half the CPU count (rounded down)
    and [max_workers], and from 8 GB on the smaller of the CPU count and
    [max_workers], neither below [min_workers]; with 2 and 8 it returns 2
    under 4 GB, whatever the CPU count. *)
Theorem optimal_workers_step
    (self : ResourceManager) (available_memory min_workers max_workers : Z) :
  (available_memory < 4 * 1024 ^ 3 ->
   get_optimal_workers self available_memory min_workers max_workers = min_workers)
  /\ (4 * 1024 ^ 3 <= available_memory < 8 * 1024 ^ 3 ->
      get_optimal_workers self available_memory min_workers max_workers
      = Z.max min_workers (Z.min (cpu_count self / 2) max_workers))
  /\ (8 * 1024 ^ 3 <= available_memory ->
      get_optimal_workers self available_memory min_workers max_workers
      = Z.max min_workers (Z.min (cpu_count self) max_workers))
  /\ (available_memory < 4 * 1024 ^ 3 ->
      get_optimal_workers self available_memory 2 8 = 2).
Proof.
  unfold get_optimal_workers.
  pose proof (memory_gb_below available_memory 4) as H4.
  pose proof (memory_gb_below available_memory 8) as H8.
  change (inject_Z 4) with 4%Q in H4. change (inject_Z 8) with 8%Q in H8.
  destruct (Qltb _ 4); destruct (Qltb _ 8);
    repeat split; intros; try lia;
    try (assert (true = true) as Ht by done; apply H4 in Ht; lia);
    try (assert (true = true) as Ht by done; apply H8 in Ht; lia);
    try (exfalso; assert (false = true) as Ht by (first [apply H4 | apply H8]; lia);
         discriminate).
Qed.

(** A 16-core machine with 3, 6 and 32 GB available. *)
Lemma optimal_workers_step_witness :
  let self := ResourceManager_init (Some 16) (64 * 1024 ^ 3) in
  get_optimal_workers self (3 * 1024 ^ 3) 2 8 = 2
  /\ get_optimal_workers self (6 * 1024 ^ 3) 2 12 = 8
  /\ get_optimal_workers self (32 * 1024 ^ 3) 2 12 = 12.
Proof.
  intros self.
  destruct (optimal_workers_step self (3 * 1024 ^ 3) 2 8) as (_ & _ & _ & Hlow).
  destruct (optimal_workers_step self (6 * 1024 ^ 3) 2 12) as (_ & Hmid & _).
  destruct (optimal_workers_step self (32 * 1024 ^ 3) 2 12) as (_ & _ & Hhigh & _).
  split; [|split].
  - apply Hlow. reflexivity.
  - rewrite Hmid; [reflexivity | split; [discriminate | reflexivity]].
  - rewrite Hhigh; [reflexivity | discriminate].
Defined.

(** ** Retry executor *)

Section Retry.

Context (w : World) {A : Type} (func : Operation A).
Context (max_retries : Z) (base_delay : Q) (source : string).
Hypothesis base_delay_nonneg : (0 <= base_delay)%Q.

Lemma sleep_backoff (a : Z) (st : State) :
  0 <= a ->
  sleep (base_delay * inject_Z (2 ^ a)) st
  = (Returned tt,
     {| db := db st; circuit_breaker := circuit_breaker st;
        clock_reads := clock_reads st; requests := requests st;
        sleeps := sleeps st ++ [(base_delay * inject_Z (2 ^ a))%Q] |}).
Proof.
  intros Ha. unfold sleep.
  assert (0 <= inject_Z (2 ^ a))%Q as Hp.
  { change 0%Q with (inject_Z 0). rewrite <- Zle_Qle. apply Z.pow_nonneg. lia. }
  assert (Qltb (base_delay * inject_Z (2 ^ a)) 0 = false) as ->; [|done].
  apply Qltb_ge. by apply Qmult_le_0_compat.
Qed.

(** One attempt that returns. *)
Lemma retry_attempts_returns (remaining : nat) (a : Z) (st : State) (v : A) :
  op_result func (length (requests st)) = Returned v ->
  exists st',
    retry_attempts w func max_retries base_delay source (S remaining) a st
    = (Returned (Some v), st')
    /\ retry_effects func base_delay source a [] (Returned v) st st'.
Proof.
  intros Hop. eexists. split.
  - simpl. unfold bind, try_except, read_time, invoke, db_track_api_call,
      cb_record_success, read_datetime, bind, ret. simpl. rewrite Hop. simpl.
    reflexivity.
  - eexists [], _, [], 0%Q. simpl. rewrite app_nil_r.
    repeat split; constructor.
Qed.

(** A last attempt that raises. *)
Lemma retry_attempts_raises (remaining : nat) (a : Z) (st : State) (e : string) :
  op_result func (length (requests st)) = Raised e ->
  a = max_retries - 1 ->
  exists st',
    retry_attempts w func max_retries base_delay source (S remaining) a st
    = (Raised e, st')
    /\ retry_effects func base_delay source a [] (Raised e) st st'.
Proof.
  intros Hop Ha. eexists. split.
  - simpl. unfold bind, try_except, read_time, invoke, db_track_api_call,
      cb_record_failure, read_datetime, bind, ret. simpl. rewrite Hop. simpl.
    destruct (Z.eqb_spec a (max_retries - 1)); [|done]. reflexivity.
  - eexists [], _, [], _. simpl. rewrite app_nil_r.
    repeat split; constructor.
Qed.

(** An earlier attempt that raises: log, breaker, sleep, next attempt. *)
Lemma retry_attempts_retries (remaining : nat) (a : Z) (st : State) (e : string) :
  op_result func (length (requests st)) = Raised e ->
  a <> max_retries - 1 -> 0 <= a ->
  exists st1 row t,
    retry_attempts w func max_retries base_delay source (S remaining) a st
    = retry_attempts w func max_retries base_delay source remaining (a + 1) st1
    /\ requests st1 = requests st ++ [op_request func]
    /\ sleeps st1 = sleeps st ++ [(base_delay * inject_Z (2 ^ a))%Q]
    /\ api_tracking (db st1) = api_tracking (db st) ++ [row]
    /\ media_cache (db st1) = media_cache (db st)
    /\ failure_row source e row
    /\ circuit_breaker st1 = record_failure (circuit_breaker st) source t.
Proof.
  intros Hop Ha Hnn. eexists _, _, _. split.
  - simpl. unfold bind, try_except, read_time, invoke, db_track_api_call,
      cb_record_failure, read_datetime, bind, ret. simpl. rewrite Hop. simpl.
    destruct (Z.eqb_spec a (max_retries - 1)); [done|].
    rewrite sleep_backoff by done. reflexivity.
  - simpl. repeat split.
Qed.

Lemma backoff_delays_S (a : Z) (m : nat) :
  backoff_delays base_delay a (S m)
  = (base_delay * inject_Z (2 ^ a))%Q :: backoff_delays base_delay (a + 1) m.
Proof.
  unfold backoff_delays. simpl seq. rewrite fmap_cons, Z.add_0_r. f_equal.
  rewrite <- fmap_S_seq, <- list_fmap_compose. apply list_fmap_ext.
  intros i x _. simpl. do 3 f_equal. lia.
Qed.

(** A whole run of attempts. *)
Lemma retry_attempts_run (errs : list string) :
  forall (remaining : nat) (a : Z) (st : State) (final : Outcome A),
    0 <= a -> a + Z.of_nat remaining = max_retries ->
    attempts_made (fun i => op_result func (length (requests st) + i))
                  remaining errs final ->
    exists st',
      retry_attempts w func max_retries base_delay source remaining a st
      = (retry_answer final, st')
      /\ retry_effects func base_delay source a errs final st st'.
Proof.
  induction errs as [|e errs IH];
    intros remaining a st final Ha Hsum (Herrs & Hfinal & Hlt & Hlast).
  - simpl in Hfinal. rewrite Nat.add_0_r in Hfinal.
    destruct remaining as [|remaining]; [simpl in Hlt; lia|].
    destruct final as [v | e].
    + by apply retry_attempts_returns.
    + apply retry_attempts_raises; [done|].
      specialize (Hlast e eq_refl). simpl in Hlast. lia.
  - destruct remaining as [|remaining]; [simpl in Hlt; lia|].
    simpl in Hlt.
    assert (He : op_result func (length (requests st)) = Raised e).
    { specialize (Herrs 0%nat e eq_refl). simpl in Herrs.
      by rewrite Nat.add_0_r in Herrs. }
    destruct (retry_attempts_retries remaining a st e He)
      as (st1 & row & t & Hstep & Hreq & Hsl & Hlog & Hmc & Hrow & Hcb);
      [lia | done |].
    destruct (IH remaining (a + 1) st1 final) as (st' & Hrun & Heff);
      [lia | lia | |].
    { rewrite Hreq, length_app. simpl length.
      split; [|split; [|split]].
      - intros i e' Hi. replace (length (requests st) + 1 + i)%nat
          with (length (requests st) + S i)%nat by lia. by apply Herrs.
      - replace (length (requests st) + 1 + length errs)%nat
          with (length (requests st) + length (e :: errs))%nat
          by (simpl; lia). done.
      - lia.
      - intros e' He'. specialize (Hlast e' He'). simpl in Hlast. lia. }
    exists st'. split; [by rewrite Hstep|].
    destruct Heff as (rows & last_row & ts & t' & H1 & H2 & H3 & H4 & H5 & H6 & H7 & H8).
    exists (row :: rows), last_row, (t :: ts), t'.
    rewrite H1, H2, H3, H4, H8, Hreq, Hsl, Hlog, Hmc, Hcb.
    simpl length. rewrite backoff_delays_S.
    repeat split; try done.
    + by rewrite <- app_assoc.
    + by rewrite <- app_assoc.
    + by rewrite <- app_assoc.
    + by constructor.
    + by f_equal.
Qed.

End Retry.

(** Among [n >= 1] allowed attempts there is a first one that returns, or
    all of them raise. *)
Lemma attempts_made_exist {A} (n : nat) :
  forall f : nat -> Outcome A,
    (0 < n)%nat -> exists errs final, attempts_made f n errs final.
Proof.
  induction n as [|n IH]; intros f Hn; [lia|].
  destruct (f 0%nat) as [v | e] eqn:E0.
  - exists [], (Returned v). repeat split; simpl; try done; lia.
  - destruct n as [|n].
    + exists [], (Raised e). repeat split; simpl; done.
    + destruct (IH (fun i => f (S i))) as (errs & final & H1 & H2 & H3 & H4); [lia|].
      exists (e :: errs), final. split; [|split; [|split]].
      * intros [|i] e'; simpl; [by intros [= <-] | apply H1].
      * done.
      * simpl. lia.
      * intros e' He'. simpl. f_equal. by apply (H4 e').
Qed.

(** A run of [retry_with_backoff] from its first attempt. *)
Lemma retry_with_backoff_run
    (w : World) {A : Type} (func : Operation A) (max_retries : Z)
    (base_delay : Q) (source : string) (st : State) :
  1 <= max_retries -> (0 <= base_delay)%Q ->
  exists errs final st',
    attempts_made (fun i => op_result func (length (requests st) + i))
                  (Z.to_nat max_retries) errs final
    /\ retry_with_backoff w func max_retries base_delay source st
       = (retry_answer final, st')
    /\ retry_effects func base_delay source 0 errs final st st'.
Proof.
  intros Hmax Hbase.
  destruct (attempts_made_exist (Z.to_nat max_retries)
              (fun i => op_result func (length (requests st) + i)))
    as (errs & final & Hmade); [lia|].
  destruct (retry_attempts_run w func max_retries base_delay source Hbase errs
              (Z.to_nat max_retries) 0 st final) as (st' & Hrun & Heff);
    [lia | lia | done |].
  by exists errs, final, st'.
Qed.



(** ** Acquisition orchestrator *)

Section Orchestrator.

Context (w : World).

Lemma cb_is_open_spec (source : string) (st : State) :
  fst (cb_is_open w source st)
  = Returned (fst (is_open (circuit_breaker st) source
                           (time_time w (clock_reads st))))
  /\ circuit_breaker (snd (cb_is_open w source st))
     = snd (is_open (circuit_breaker st) source (time_time w (clock_reads st)))
  /\ db (snd (cb_is_open w source st)) = db st
  /\ requests (snd (cb_is_open w source st)) = requests st
  /\ sleeps (snd (cb_is_open w source st)) = sleeps st.
Proof.
  unfold cb_is_open, is_open.
  destruct (failures (circuit_breaker st) !! source); [|done].
  destruct (_ <=? _); done.
Qed.

Lemma _search_source_known (source query : string) :
  _search_source w source query
  = if bool_decide (source ∈ known_sources) then
      r <- retry_with_backoff w (provider_call w source query) 3 1 source ;;
      ret (returned_url r)
    else ret None.
Proof.
  unfold _search_source, known_sources.
  destruct (String.eqb_spec source "nasa") as [-> | ?]; [reflexivity|].
  destruct (String.eqb_spec source "pexels") as [-> | ?]; [reflexivity|].
  destruct (String.eqb_spec source "pixabay") as [-> | ?]; [reflexivity|].
  destruct (String.eqb_spec source "unsplash") as [-> | ?]; [reflexivity|].
  destruct (String.eqb_spec source "giphy") as [-> | ?]; [reflexivity|].
  rewrite bool_decide_eq_false_2; [done|].
  rewrite !elem_of_cons, elem_of_nil. intros [?|[?|[?|[?|[?|[]]]]]]; done.
Qed.

(** A URL comes out of [_search_source] only as the answer to one of the
    requests it issued; the requests issued before stay on record. *)
Lemma _search_source_spec (source query : string) (st : State) :
  exists out st' new,
    _search_source w source query st = (out, st')
    /\ requests st' = requests st ++ new
    /\ forall url, out = Returned (Some url) ->
         exists i, new !! i = Some {| req_source := source; req_query := query |}
                   /\ provider w source query (length (requests st) + i)
                      = Returned (Some url).
Proof.
  rewrite _search_source_known. case_bool_decide as Hk.
  - destruct (retry_with_backoff_run w (provider_call w source query)
                3 1 source st) as (errs & final & st' & Hmade & Hrun & Heff);
      [lia | discriminate |].
    destruct Hmade as (_ & Hfinal & _).
    destruct Heff as (? & ? & ? & ? & Hreq & _).
    unfold bind. rewrite Hrun.
    destruct final as [v | e]; simpl.
    + eexists _, _, _. split; [reflexivity|]. split; [exact Hreq|].
      intros url [= ->]. exists (length errs). split.
      * apply lookup_replicate_2. lia.
      * exact Hfinal.
    + eexists _, _, _. split; [reflexivity|]. split; [exact Hreq|]. done.
  - exists (Returned None), st, []. rewrite app_nil_r. done.
Qed.

Lemma truthy_spec (url : option string) :
  truthy url = true <-> exists s, url = Some s /\ s <> EmptyString.
Proof.
  destruct url as [[|c s]|]; simpl; split; try done.
  - intros (s & [= <-] & Hs). done.
  - intros _. by eexists.
  - intros (s & ? & _). done.
Qed.

(** One iteration of the loop never raises, and hands on a URL only when
    the provider it called returned that non-empty URL. *)
Lemma try_source_spec (query source : string) (st : State) :
  exists r st' new,
    try_source w query source st = (Returned r, st')
    /\ requests st' = requests st ++ new
    /\ forall url, r = Some url -> yielded w query [source] st new url.
Proof.
  unfold try_source, bind.
  destruct (cb_is_open_spec source st) as (Hfst & _ & _ & Hreq1 & _).
  destruct (cb_is_open w source st) as [o st1]. simpl in Hfst, Hreq1. subst o.
  destruct (fst (is_open _ _ _)).
  { exists None, st1, []. by rewrite app_nil_r, Hreq1. }
  unfold db_get_api_health, bind, read_datetime. simpl.
  destruct (Qltb _ _).
  { exists None, (tick st1), []. by rewrite app_nil_r. }
  unfold try_except, bind, ret.
  destruct (_search_source_spec source query (tick st1))
    as (out & st' & new & Hrun & Hreq & Hurl).
  rewrite Hrun. simpl in Hreq. rewrite Hreq1 in Hreq.
  destruct out as [url | e].
  - exists (if truthy url then url else None), st', new.
    split; [done|]. split; [done|].
    intros u Hu. destruct (truthy url) eqn:Ht; [|done]. subst url.
    apply truthy_spec in Ht as (s & [= <-] & Hs). split; [done|].
    destruct (Hurl u eq_refl) as (i & Hi & Hp). exists i, source.
    split; [left|]. simpl in Hp. by rewrite Hreq1 in Hp.
  - exists None, st', new. done.
Qed.

(** A source whose circuit is open, or whose recent success rate is below
    0.3, is passed over without a call. *)
Lemma try_source_skips (query source : string) (st : State) :
  circuit_open w source st \/ unhealthy w source st ->
  exists st',
    try_source w query source st = (Returned None, st')
    /\ no_provider_call st st'.
Proof.
  unfold circuit_open, unhealthy, no_provider_call, try_source, bind.
  destruct (cb_is_open_spec source st) as (Hfst & _ & Hdb & Hreq & Hsl).
  destruct (cb_is_open w source st) as [o st1].
  simpl in Hfst, Hdb, Hreq, Hsl. simpl. subst o.
  intros Hskip.
  destruct (fst (is_open _ _ _)) eqn:Hopen.
  { by exists st1. }
  destruct Hskip as [? | Hrate]; [done|].
  unfold db_get_api_health, bind, read_datetime. simpl.
  rewrite Hdb. apply Qltb_lt in Hrate. rewrite Hrate.
  by exists (tick st1).
Qed.

(** The loop over the sources never raises, and returns a URL only when a
    provider called in this run returned that non-empty URL. *)
Lemma search_sources_spec (query : string) (order : list string) :
  forall st, exists r st' new,
    search_sources w query order st = (Returned r, st')
    /\ requests st' = requests st ++ new
    /\ forall url, r = Some url -> yielded w query order st new url.
Proof.
  induction order as [|source rest IH]; intros st.
  - exists None, st, []. by rewrite app_nil_r.
  - simpl. unfold bind.
    destruct (try_source_spec query source st)
      as (r & st1 & new1 & Hrun & Hreq1 & Hurl1).
    rewrite Hrun. destruct r as [url|].
    + exists (Some url), st1, new1. split; [done|]. split; [done|].
      intros u [= <-]. destruct (Hurl1 url eq_refl) as (Hne & i & s & Hs & Hi & Hp).
      split; [done|]. exists i, s. apply list_elem_of_singleton in Hs as ->.
      split; [left | done].
    + destruct (IH st1) as (r & st' & new & Hrun' & Hreq & Hurl).
      exists r, st', (new1 ++ new). split; [done|].
      split; [by rewrite Hreq, Hreq1, app_assoc|].
      intros u Hu. destruct (Hurl u Hu) as (Hne & i & s & Hs & Hi & Hp).
      split; [done|]. exists (length new1 + i)%nat, s.
      split; [by right|]. split.
      * by rewrite lookup_app_r, Nat.add_comm, Nat.add_sub by lia.
      * rewrite Hreq1, length_app in Hp. by rewrite Nat.add_assoc.
Qed.

Lemma cb_is_open_reads (source : string) (st : State) :
  fst (is_open (circuit_breaker st) source (time_time w (clock_reads st))) = true ->
  clock_reads (snd (cb_is_open w source st)) = S (clock_reads st).
Proof.
  unfold cb_is_open, is_open.
  destruct (failures (circuit_breaker st) !! source); [|done].
  destruct (_ <=? _); done.
Qed.

(** With every circuit of the ordering open when it is checked, the loop
    calls nobody. *)
Lemma search_sources_all_open (query : string) (order : list string) :
  forall st,
    (forall i source, order !! i = Some source ->
       fst (is_open (circuit_breaker st) source
                    (time_time w (clock_reads st + i))) = true) ->
    exists st',
      search_sources w query order st = (Returned None, st')
      /\ no_provider_call st st'
      /\ circuit_breaker st' = circuit_breaker st.
Proof.
  induction order as [|source rest IH]; intros st Hopen.
  - by exists st.
  - simpl. unfold bind, try_source, bind.
    pose proof (Hopen 0%nat source eq_refl) as Hs. rewrite Nat.add_0_r in Hs.
    pose proof (cb_is_open_reads source st Hs) as Hclock.
    destruct (cb_is_open_spec source st) as (Hfst & Hcb & Hdb & Hreq & Hsl).
    destruct (cb_is_open w source st) as [o st1].
    simpl in Hfst, Hcb, Hdb, Hreq, Hsl, Hclock. subst o.
    rewrite (is_open_true_unchanged _ _ _ Hs) in Hcb. simpl in Hcb.
    rewrite Hs. simpl.
    destruct (IH st1) as (st' & Hrun & (Hreq' & Hsl' & Hdb') & Hcb').
    { intros i s Hi. rewrite Hcb, Hclock.
      replace (S (clock_reads st) + i)%nat with (clock_reads st + S i)%nat by lia.
      by apply Hopen. }
    exists st'. unfold ret in *. rewrite Hrun. split; [done|].
    unfold no_provider_call. by rewrite Hreq', Hsl', Hdb', Hcb'.
Qed.

End Orchestrator.

(** C6. Cache bypass. When the cache lookup finds an entry,
    [search_with_fallback] returns the entry's URL and calls no provider:
    no request is issued, no call record is logged, the breaker is not
    touched and the process does not sleep; the store changes by the
    lookup's own usage update alone. *)
Theorem search_with_fallback_cache_hit
    (w : World) (query : string) (prefer_video : bool) (st : State)
    (media : MediaRow) :
  cache_hit w query st media ->
  exists st',
    search_with_fallback w query prefer_video st
    = (Returned (Some (mc_media_url media)), st')
    /\ requests st' = requests st
    /\ api_tracking (db st') = api_tracking (db st)
    /\ circuit_breaker st' = circuit_breaker st
    /\ sleeps st' = sleeps st
    /\ db st' = snd (get_cached_media (db st) (datetime_now w (clock_reads st))
                       (datetime_now w (S (clock_reads st))) query None).
Proof.
  unfold cache_hit, search_with_fallback, bind, db_get_cached_media, bind,
    read_datetime. simpl.
  destruct (get_cached_media _ _ _ _ _) as [o d] eqn:E. simpl. intros ->.
  eexists. split; [reflexivity|]. simpl.
  apply get_cached_media_hit in E as (_ & _ & _ & ->). done.
Qed.

(** A cached entry for the query of a segment: its URL comes back and the
    one provider that would fail is never asked. *)
Lemma search_with_fallback_cache_hit_witness :
  let media := {| mc_id := 1; mc_query := "mars rover"; mc_source := "nasa";
                  mc_media_url := "https://images.nasa.gov/rover.jpg";
                  mc_local_path := "output/temp0.dat"; mc_file_hash := "ab12";
                  mc_media_type := "image"; mc_resolution := None;
                  mc_file_size := 1000; mc_quality_score := 5;
                  mc_use_count := 0; mc_last_used_at := None;
                  mc_expires_at := 2592000000000 |} in
  let w := example_world 100 None in
  exists st',
    search_with_fallback w "Mars  Rover" false (example_state [media])
    = (Returned (Some "https://images.nasa.gov/rover.jpg"%string), st')
    /\ requests st' = [].
Proof.
  intros media w.
  destruct (search_with_fallback_cache_hit w "Mars  Rover" false
              (example_state [media]) media) as (st' & Hrun & Hreq & _).
  - reflexivity.
  - exists st'. split; [exact Hrun | exact Hreq].
Defined.

(** C7. Exhaustion is not an error. [search_with_fallback] never raises,
    whatever the providers do. When the query misses the cache it returns
    either nothing or a non-empty URL that a provider of the ordering,
    called in this run, returned. An iteration passes over, without a
    call, a source whose circuit is open or whose success rate over the
    trailing 30 minutes is below 0.3. With the circuit of every provider of
    the ordering open at its check, the search returns nothing and no
    provider is called. *)
Theorem search_with_fallback_exhaustion
    (w : World) (query : string) (prefer_video : bool) (st : State) :
  (exists r st', search_with_fallback w query prefer_video st = (Returned r, st'))
  /\ (cache_miss w query st ->
      exists r st' new,
        search_with_fallback w query prefer_video st = (Returned r, st')
        /\ requests st' = requests st ++ new
        /\ (r = None
            \/ exists url, r = Some url
                 /\ yielded w query (search_order prefer_video) st new url))
  /\ (forall source st1,
        circuit_open w source st1 \/ unhealthy w source st1 ->
        exists st2, try_source w query source st1 = (Returned None, st2)
                    /\ no_provider_call st1 st2)
  /\ (cache_miss w query st ->
      (forall i source,
          search_order prefer_video !! i = Some source ->
          fst (is_open (circuit_breaker st) source
                       (time_time w (S (clock_reads st) + i))) = true) ->
      exists st',
        search_with_fallback w query prefer_video st = (Returned None, st')
        /\ no_provider_call st st'
        /\ circuit_breaker st' = circuit_breaker st).
Proof.
  assert (Hmiss : cache_miss w query st ->
            search_with_fallback w query prefer_video st
            = search_sources w query (search_order prefer_video) (tick st)).
  { unfold cache_miss, search_with_fallback, bind, db_get_cached_media, bind,
      read_datetime. simpl.
    destruct (get_cached_media _ _ _ _ _) as [o d] eqn:E. simpl. intros ->.
    apply get_cached_media_miss in E as [-> _]. by destruct st. }
  split; [|split; [|split]].
  - unfold search_with_fallback, bind, db_get_cached_media, bind,
      read_datetime. simpl.
    destruct (get_cached_media _ _ _ _ _) as [[media|] d].
    + by eexists _, _.
    + destruct (search_sources_spec w query (search_order prefer_video)
                  (set_db (tick st) d)) as (r & st' & _ & Hrun & _).
      by exists r, st'.
  - intros Hm. rewrite (Hmiss Hm).
    destruct (search_sources_spec w query (search_order prefer_video) (tick st))
      as (r & st' & new & Hrun & Hreq & Hurl).
    exists r, st', new. split; [done|]. split; [done|].
    destruct r as [url|]; [right | by left].
    exists url. split; [done|]. by apply Hurl.
  - intros source st1. apply try_source_skips.
  - intros Hm Hopen. rewrite (Hmiss Hm).
    apply (search_sources_all_open w query (search_order prefer_video) (tick st)).
    exact Hopen.
Qed.

(** Providers that always fail, and four open circuits. *)
Lemma search_with_fallback_exhaustion_witness :
  let w := example_world 100 (Some "https://images.nasa.gov/m.jpg"%string) in
  let st := example_state [] in
  let tripped :=
    set_circuit_breaker st
      (fold_left (fun cb source => record_failures cb source [0; 0; 0; 0; 0]%Q)
                 (search_order false) CircuitBreaker_default) in
  fst (search_with_fallback w "mars" false st) = Returned None
  /\ length (requests (snd (search_with_fallback w "mars" false st))) = 12%nat
  /\ exists st', search_with_fallback w "mars" false tripped = (Returned None, st')
                 /\ requests st' = [].
Proof.
  intros w st tripped.
  destruct (search_with_fallback_exhaustion w "mars" false tripped)
    as (_ & _ & _ & Hopen).
  split; [reflexivity|]. split; [reflexivity|].
  destruct Hopen as (st' & Hrun & (Hreq & _) & _).
  - reflexivity.
  - intros [|[|[|[|i]]]] source; simpl; intros [= <-]; reflexivity.
  - exists st'. split; [exact Hrun | exact Hreq].
Defined.

(** * Further properties *)

(** ** Circuit breaker *)

Lemma is_open_cases (cb : CircuitBreaker) (source : string) (now : Q) :
  snd (is_open cb source now) = cb
  \/ snd (is_open cb source now) = record_success cb source.
Proof.
  unfold is_open. destruct (failures cb !! source); [|by left].
  destruct (_ <=? _); [|by left]. destruct (Qltb _ _); [by left | by right].
Qed.

Lemma breaker_step_other (cb : CircuitBreaker) (c : breaker_call) (source : string) :
  call_source c <> source ->
  failures (breaker_step cb c) !! source = failures cb !! source
  /\ last_failure_time (breaker_step cb c) !! source
     = last_failure_time cb !! source
  /\ failure_threshold (breaker_step cb c) = failure_threshold cb
  /\ timeout (breaker_step cb c) = timeout cb.
Proof.
  intros Hne. destruct c as [s now | s | s now]; simpl in *.
  - destruct (is_open_cases cb s now) as [-> | ->]; [done|].
    simpl. by rewrite lookup_insert_ne.
  - by rewrite lookup_insert_ne.
  - by rewrite !lookup_insert_ne.
Qed.

Lemma is_open_answer_ext (cb cb' : CircuitBreaker) (source : string) (now : Q) :
  failures cb' !! source = failures cb !! source ->
  last_failure_time cb' !! source = last_failure_time cb !! source ->
  failure_threshold cb' = failure_threshold cb ->
  timeout cb' = timeout cb ->
  fst (is_open cb' source now) = fst (is_open cb source now).
Proof.
  intros Hf Hl Ht Ho. unfold is_open, last_failure. rewrite Hf, Hl, Ht, Ho.
  destruct (failures cb !! source); [|done].
  destruct (_ <=? _); [|done]. by destruct (Qltb _ _).
Qed.

(** X1. Sources are isolated in the breaker: calls about other sources,
    whatever they are, change neither the failure count, nor the time of the
    last failure, nor the answer of [is_open] for a source. *)
Theorem breaker_source_isolation
    (cb : CircuitBreaker) (history : list breaker_call) (source : string) :
  Forall (fun c => call_source c <> source) history ->
  failure_count (breaker_run cb history) source = failure_count cb source
  /\ last_failure (breaker_run cb history) source = last_failure cb source
  /\ forall now, fst (is_open (breaker_run cb history) source now)
                 = fst (is_open cb source now).
Proof.
  intros Hall.
  assert (H : failures (breaker_run cb history) !! source = failures cb !! source
              /\ last_failure_time (breaker_run cb history) !! source
                 = last_failure_time cb !! source
              /\ failure_threshold (breaker_run cb history) = failure_threshold cb
              /\ timeout (breaker_run cb history) = timeout cb).
  { unfold breaker_run. revert cb.
    induction Hall as [|c cs Hc _ IH]; intros cb; [done|]. simpl.
    destruct (IH (breaker_step cb c)) as (-> & -> & -> & ->).
    by apply breaker_step_other. }
  destruct H as (Hf & Hl & Ht & Ho).
  unfold failure_count, last_failure. rewrite Hf, Hl.
  split; [done|]. split; [done|]. intros now. by apply is_open_answer_ext.
Qed.

(** Five failures of one provider leave another provider's circuit closed. *)
Lemma breaker_source_isolation_witness :
  let history := [CallRecordFailure "nasa" 1; CallRecordFailure "nasa" 2;
                  CallRecordFailure "nasa" 3; CallRecordFailure "nasa" 4;
                  CallRecordFailure "nasa" 5; CallIsOpen "nasa" 6]%Q in
  fst (is_open (breaker_run CircuitBreaker_default history) "pexels" 6) = false
  /\ fst (is_open (breaker_run CircuitBreaker_default history) "nasa" 6) = true.
Proof.
  intros history. split; [|reflexivity].
  destruct (breaker_source_isolation CircuitBreaker_default history "pexels")
    as (_ & _ & H).
  - unfold history. repeat constructor; discriminate.
  - by rewrite H.
Defined.

Lemma failures_recorded_app (source : string) (cs cs' : list breaker_call) :
  failures_recorded source (cs ++ cs')
  = failures_recorded source cs + failures_recorded source cs'.
Proof.
  induction cs as [|c cs IH]; simpl; [done|].
  destruct c; rewrite IH; lia.
Qed.

Lemma failures_recorded_nonneg (source : string) (cs : list breaker_call) :
  0 <= failures_recorded source cs.
Proof.
  induction cs as [|c cs IH]; simpl; [done|].
  destruct c; try done. destruct (String.eqb _ _); lia.
Qed.

Lemma breaker_step_count (cb : CircuitBreaker) (c : breaker_call) (source : string) :
  0 <= failure_count cb source ->
  0 <= failure_count (breaker_step cb c) source
       <= failure_count cb source + failures_recorded source [c].
Proof.
  intros Hnn. destruct (decide (call_source c = source)) as [Heq | Hne].
  - destruct c as [s now | s | s now]; simpl in Heq; subst s; simpl.
    + destruct (is_open_cases cb source now) as [-> | ->]; [lia|].
      unfold failure_count at 1 2. simpl. rewrite lookup_insert_eq. simpl. lia.
    + unfold failure_count at 1 2. simpl. rewrite lookup_insert_eq. simpl. lia.
    + unfold failure_count at 1 2. simpl. rewrite lookup_insert_eq. simpl.
      rewrite String.eqb_refl. lia.
  - destruct (breaker_step_other cb c source Hne) as (Hf & _).
    unfold failure_count in *. rewrite Hf.
    pose proof (failures_recorded_nonneg source [c]). lia.
Qed.

(** X2. In every state a breaker reaches from its construction, the
    threshold and the timeout are the ones it was built with, and the
    failure count of each source lies between 0 and the number of
    [record_failure] calls made for that source; so a circuit is never open
    for a source with fewer recorded failures than the threshold. *)
Theorem breaker_reachable_invariant
    (threshold tmo : Z) (history : list breaker_call) (source : string) :
  let cb := breaker_run (CircuitBreaker_init threshold tmo) history in
  failure_threshold cb = threshold /\ timeout cb = tmo
  /\ 0 <= failure_count cb source <= failures_recorded source history
  /\ (failures_recorded source history < threshold ->
      forall now, is_open cb source now = (false, cb)).
Proof.
  intros cb.
  destruct (breaker_run_invariant (CircuitBreaker_init threshold tmo) history)
    as (_ & Hth & Hto).
  { intros s n. simpl. rewrite lookup_empty. discriminate. }
  fold cb in Hth, Hto. simpl in Hth, Hto.
  assert (Hcount : 0 <= failure_count cb source <= failures_recorded source history).
  { unfold cb. clear. induction history as [|c cs IH] using rev_ind.
    - simpl. unfold failure_count. simpl. rewrite lookup_empty. simpl. lia.
    - unfold breaker_run in *. rewrite fold_left_app. simpl.
      rewrite failures_recorded_app.
      pose proof (breaker_step_count
                    (fold_left breaker_step cs (CircuitBreaker_init threshold tmo))
                    c source ltac:(lia)). lia. }
  split; [done|]. split; [done|]. split; [done|].
  intros Hlt now. unfold is_open.
  destruct (failures cb !! source) as [n|] eqn:E; [|done].
  rewrite (failure_count_lookup _ _ _ E) in Hcount.
  destruct (Z.leb_spec (failure_threshold cb) n); [lia | done].
Qed.

(** Four failures, a success and two more failures: the count is 2. *)
Lemma breaker_reachable_invariant_witness :
  let history := [CallRecordFailure "nasa" 1; CallRecordFailure "nasa" 2;
                  CallRecordFailure "nasa" 3; CallRecordSuccess "nasa";
                  CallRecordFailure "nasa" 5]%Q in
  let cb := breaker_run (CircuitBreaker_init 5 60) history in
  0 <= failure_count cb "nasa" <= 4 /\ is_open cb "nasa" 6 = (false, cb).
Proof.
  intros history cb.
  destruct (breaker_reachable_invariant 5 60 history "nasa")
    as (_ & _ & Hcount & Hclosed).
  split; [exact Hcount|]. apply Hclosed. reflexivity.
Defined.

(** X3. After a success, fewer consecutive failures than the threshold
    leave the circuit closed, at whatever time it is checked, and the check
    changes nothing. *)
Theorem breaker_below_threshold_closed
    (cb : CircuitBreaker) (source : string) (ts : list Q) (now : Q) :
  Z.of_nat (length ts) < failure_threshold cb ->
  let cb' := record_failures (record_success cb source) source ts in
  failure_count cb' source = Z.of_nat (length ts)
  /\ is_open cb' source now = (false, cb').
Proof.
  intros Hlt cb'.
  assert (Hcount : failure_count cb' source = Z.of_nat (length ts)).
  { unfold cb'. rewrite record_failures_count. unfold failure_count. simpl.
    rewrite lookup_insert_eq. simpl. lia. }
  split; [done|].
  destruct (record_failures_config (record_success cb source) source ts)
    as [Hth _]. fold cb' in Hth. simpl in Hth.
  unfold is_open. destruct (failures cb' !! source) as [n|] eqn:E; [|done].
  rewrite (failure_count_lookup _ _ _ E) in Hcount. rewrite Hth.
  destruct (Z.leb_spec (failure_threshold cb) n); [lia | done].
Qed.

(** An open circuit, a success, then four failures. *)
Lemma breaker_below_threshold_closed_witness :
  let cb := record_failures CircuitBreaker_default "nasa" [1; 2; 3; 4; 5]%Q in
  fst (is_open cb "nasa" 6) = true
  /\ fst (is_open (record_failures (record_success cb "nasa") "nasa"
                                   [7; 8; 9; 10]%Q) "nasa" 11) = false.
Proof.
  intros cb. split; [reflexivity|].
  destruct (breaker_below_threshold_closed cb "nasa" [7; 8; 9; 10]%Q 11%Q) as [_ H].
  - reflexivity.
  - by rewrite H.
Defined.

(** X4. A circuit check can be repeated: a second [is_open] at the same
    clock reading gives the same answer and leaves the breaker as the first
    check left it. *)
Theorem is_open_idempotent (cb : CircuitBreaker) (source : string) (now : Q) :
  is_open (snd (is_open cb source now)) source now
  = (fst (is_open cb source now), snd (is_open cb source now)).
Proof.
  unfold is_open at 2 3 4.
  destruct (failures cb !! source) as [n|] eqn:E; simpl.
  - destruct (Z.leb_spec (failure_threshold cb) n) as [Hle | Hlt]; simpl.
    + destruct (Qltb _ _) eqn:Hq; simpl.
      * unfold is_open. rewrite E.
        destruct (Z.leb_spec (failure_threshold cb) n); [|lia]. by rewrite Hq.
      * unfold is_open. simpl. rewrite lookup_insert_eq.
        destruct (failure_threshold cb <=? 0); [|done].
        unfold last_failure in *. simpl. rewrite Hq.
        by rewrite insert_insert_eq.
    + unfold is_open. rewrite E.
      destruct (Z.leb_spec (failure_threshold cb) n); [lia | done].
  - unfold is_open. by rewrite E.
Qed.

(** ** Retry executor *)

(** X5. [retry_with_backoff] never calls the operation more often than
    [max_retries] allows, whatever that number is: with a delay that is not
    negative it issues [n] calls of the operation and nothing else, logs
    [n] rows, sleeps [n - 1] times when [n] is positive, and [n] is at most
    [max_retries]; with [max_retries] zero or negative nothing is called,
    nothing changes and the result is [None]. *)
Theorem retry_with_backoff_calls_bounded
    (w : World) {A : Type} (func : Operation A) (max_retries : Z)
    (base_delay : Q) (source : string) (st : State) :
  (0 <= base_delay)%Q ->
  let run := retry_with_backoff w func max_retries base_delay source st in
  (exists n : nat,
      requests (snd run) = requests st ++ replicate n (op_request func)
      /\ Z.of_nat n <= Z.max 0 max_retries
      /\ length (api_tracking (db (snd run)))
         = (length (api_tracking (db st)) + n)%nat
      /\ length (sleeps (snd run)) = (length (sleeps st) + (n - 1))%nat)
  /\ (max_retries <= 0 -> run = (Returned None, st)).
Proof.
  intros Hbase run. split.
  - destruct (Z.le_gt_cases max_retries 0) as [Hle | Hgt].
    + exists 0%nat. unfold run, retry_with_backoff.
      replace (Z.to_nat max_retries) with 0%nat by lia. simpl.
      rewrite app_nil_r. repeat split; lia.
    + destruct (retry_with_backoff_run w func max_retries base_delay source st)
        as (errs & final & st' & (_ & _ & Hlt & _) & Hrun & Heff); [lia | done |].
      destruct Heff as (rows & last_row & ts & t & H1 & H2 & H3 & _ & H5 & _).
      exists (S (length errs)). unfold run. rewrite Hrun. simpl.
      rewrite H1, H2, H3. split; [done|]. split; [lia|].
      apply Forall2_length in H5.
      rewrite !length_app. unfold backoff_delays. rewrite length_fmap, length_seq.
      simpl. lia.
  - intros Hle. unfold run, retry_with_backoff.
    by replace (Z.to_nat max_retries) with 0%nat by lia.
Qed.

(** One call when the provider answers at once, none when no attempt is
    allowed. *)
Lemma retry_with_backoff_calls_bounded_witness :
  let w := example_world 0 (Some "https://images.nasa.gov/m.jpg"%string) in
  let st := example_state [] in
  length (requests (snd (retry_with_backoff w (_search_nasa w "mars") 3 1
                                            "nasa" st))) = 1%nat
  /\ retry_with_backoff w (_search_nasa w "mars") 0 1 "nasa" st
     = (Returned None, st).
Proof.
  intros w st. split; [reflexivity|].
  apply (retry_with_backoff_calls_bounded w (_search_nasa w "mars") 0 1 "nasa" st);
    [discriminate | lia].
Defined.

(** X6. With a negative [base_delay], a failure of an attempt that is not
    the last one is not retried: the failure is logged and recorded in the
    breaker, then [time.sleep] refuses the negative delay and its error,
    not the operation's, reaches the caller after that single call. *)
Theorem retry_with_backoff_negative_delay
    (w : World) {A : Type} (func : Operation A) (max_retries : Z)
    (base_delay : Q) (source : string) (st : State) (e : string) :
  (base_delay < 0)%Q -> 2 <= max_retries ->
  op_result func (length (requests st)) = Raised e ->
  exists st' row t,
    retry_with_backoff w func max_retries base_delay source st
    = (Raised "sleep length must be non-negative"%string, st')
    /\ requests st' = requests st ++ [op_request func]
    /\ api_tracking (db st') = api_tracking (db st) ++ [row]
    /\ failure_row source e row
    /\ circuit_breaker st' = record_failure (circuit_breaker st) source t
    /\ sleeps st' = sleeps st.
Proof.
  intros Hneg Hmax Hop. unfold retry_with_backoff.
  destruct (Z.to_nat max_retries) as [|remaining] eqn:En; [lia|].
  eexists _, _, _. split.
  - simpl. unfold bind, try_except, read_time, invoke, db_track_api_call,
      cb_record_failure, read_datetime, bind, ret. simpl. rewrite Hop. simpl.
    unfold sleep.
    assert (Qltb (base_delay * inject_Z (2 ^ 0)) 0 = true) as ->.
    { apply Qltb_lt. change (inject_Z (2 ^ 0)) with 1%Q. lra. }
    destruct (max_retries - 1) eqn:Em; [lia | reflexivity | reflexivity].
  - simpl. repeat split.
Qed.

(** A delay of -1 and a provider that is down. *)
Lemma retry_with_backoff_negative_delay_witness :
  let w := example_world 100 None in
  exists st',
    retry_with_backoff w (_search_nasa w "mars") 3 (-1) "nasa" (example_state [])
    = (Raised "sleep length must be non-negative"%string, st')
    /\ length (requests st') = 1%nat.
Proof.
  intros w.
  destruct (retry_with_backoff_negative_delay w (_search_nasa w "mars") 3 (-1)
              "nasa" (example_state []) "HTTP 503")
    as (st' & row & t & Hrun & Hreq & _); [reflexivity | lia | reflexivity |].
  exists st'. split; [exact Hrun|]. by rewrite Hreq.
Defined.




(** ** Content cache: sweep, invariants, round trips *)

Lemma get_cached_media_answer_ext
    (db db2 : DatabaseClient) (now now' : Z) (query : string)
    (source : option string) :
  filter (fun r => cache_candidate (_normalize_query query) now source r = true)
         (media_cache db2)
  = filter (fun r => cache_candidate (_normalize_query query) now source r = true)
           (media_cache db) ->
  fst (get_cached_media db2 now now' query source)
  = fst (get_cached_media db now now' query source).
Proof.
  intros H. unfold get_cached_media. rewrite H.
  by destruct (take 1 _).
Qed.

(** X8. The expiry sweep: [cleanup_expired_cache] keeps exactly the rows
    whose expiry is not before the sweep, in their order, and leaves the
    call log alone; sweeping twice is sweeping once; and no lookup made at
    or after the time of the sweep answers differently because of it. *)
Theorem cleanup_expired_cache_keeps_lookups (db : DatabaseClient) (now : Z) :
  (forall r, r ∈ media_cache (cleanup_expired_cache db now)
             <-> r ∈ media_cache db /\ now <= mc_expires_at r)
  /\ media_cache (cleanup_expired_cache db now) `sublist_of` media_cache db
  /\ api_tracking (cleanup_expired_cache db now) = api_tracking db
  /\ cleanup_expired_cache (cleanup_expired_cache db now) now
     = cleanup_expired_cache db now
  /\ forall t t' query source,
       now <= t ->
       fst (get_cached_media (cleanup_expired_cache db now) t t' query source)
       = fst (get_cached_media db t t' query source).
Proof.
  split; [|split; [|split; [|split]]].
  - intros r. unfold cleanup_expired_cache. simpl. rewrite list_elem_of_filter.
    rewrite negb_true_iff, Z.ltb_ge. tauto.
  - apply sublist_filter.
  - done.
  - unfold cleanup_expired_cache. simpl. f_equal.
    apply list_filter_filter_l. done.
  - intros t t' query source Ht. apply get_cached_media_answer_ext.
    unfold cleanup_expired_cache. simpl. apply list_filter_filter_l.
    intros r Hr. apply cache_candidate_spec in Hr as (_ & Hexp & _).
    rewrite negb_true_iff, Z.ltb_ge. lia.
Qed.

(** A sweep at time 100 drops the entry expired at 50 and the lookup at 100
    still finds the live one. *)
Lemma cleanup_expired_cache_keeps_lookups_witness :
  let entry id expires :=
    {| mc_id := id; mc_query := "mars rover"; mc_source := "nasa";
       mc_media_url := "u"; mc_local_path := "p"; mc_file_hash := "h";
       mc_media_type := "image"; mc_resolution := None; mc_file_size := 1;
       mc_quality_score := 5; mc_use_count := 0;
       mc_last_used_at := None; mc_expires_at := expires |} in
  let db := {| media_cache := [entry 1 50; entry 2 1000]; api_tracking := [];
               media_cache_defaults := fun _ _ =>
                 {| new_id := 3; new_use_count := 0; new_last_used_at := None |} |} in
  media_cache (cleanup_expired_cache db 100) = [entry 2 1000]
  /\ fst (get_cached_media (cleanup_expired_cache db 100) 100 101
                           "Mars Rover" None) = Some (entry 2 1000).
Proof.
  intros entry db. split; [reflexivity|].
  destruct (cleanup_expired_cache_keeps_lookups db 100) as (_ & _ & _ & _ & H).
  rewrite H; [reflexivity | lia].
Defined.

Lemma bump_usage_fields (id now count : Z) (r : MediaRow) :
  mc_file_hash (bump_usage id now count r) = mc_file_hash r
  /\ mc_query (bump_usage id now count r) = mc_query r
  /\ mc_id (bump_usage id now count r) = mc_id r
  /\ mc_expires_at (bump_usage id now count r) = mc_expires_at r
  /\ mc_quality_score (bump_usage id now count r) = mc_quality_score r
  /\ mc_source (bump_usage id now count r) = mc_source r
  /\ mc_media_url (bump_usage id now count r) = mc_media_url r.
Proof. unfold bump_usage. by destruct (mc_id r =? id). Qed.

Lemma get_cached_media_rows (db : DatabaseClient) (now now' : Z) (query : string)
    (source : option string) :
  exists f : MediaRow -> MediaRow,
    media_cache (snd (get_cached_media db now now' query source))
    = f <$> media_cache db
    /\ forall r, mc_file_hash (f r) = mc_file_hash r
                 /\ mc_query (f r) = mc_query r.
Proof.
  destruct (get_cached_media db now now' query source) as [[m|] db'] eqn:E.
  - apply get_cached_media_hit in E as (_ & _ & _ & ->). simpl.
    eexists. split; [reflexivity|]. intros r.
    destruct (bump_usage_fields (mc_id m) now' (mc_use_count m + 1) r)
      as (? & ? & _). done.
  - apply get_cached_media_miss in E as [-> _]. simpl.
    exists id. by rewrite list_fmap_id.
Qed.

Lemma store_step_invariant (db : DatabaseClient) (c : store_call) :
  NoDup (mc_file_hash <$> media_cache db) ->
  Forall (fun r => _normalize_query (mc_query r) = mc_query r) (media_cache db) ->
  NoDup (mc_file_hash <$> media_cache (store_step db c))
  /\ Forall (fun r => _normalize_query (mc_query r) = mc_query r)
            (media_cache (store_step db c)).
Proof.
  intros Hnd Hq.
  destruct c as [now query source media_url local_path file_hash media_type
                 resolution file_size quality_score
                | now now' query source | now]; simpl.
  - assert (Hcases : (exists e, e ∈ media_cache db /\ mc_file_hash e = file_hash)
                     \/ ~ (exists e, e ∈ media_cache db /\ mc_file_hash e = file_hash)).
    { destruct (decide (file_hash ∈ mc_file_hash <$> media_cache db)) as [Hin | Hout].
      - left. apply list_elem_of_fmap in Hin as (e & -> & He). by exists e.
      - right. intros (e & He & Hh). apply Hout. subst file_hash.
        by apply list_elem_of_fmap_2. }
    destruct Hcases as [Hex | Hno].
    + destruct (save_media_cache_existing db now query source media_url local_path
                  file_hash media_type resolution file_size quality_score Hex)
        as [-> _]. done.
    + assert (Hfresh : forall e, e ∈ media_cache db -> mc_file_hash e <> file_hash).
      { intros e He Hh. apply Hno. by exists e. }
      destruct (save_media_cache_fresh db now query source media_url local_path
                  file_hash media_type resolution file_size quality_score Hfresh)
        as (row & _ & -> & _ & Hh & _ & Hrq & _).
      split.
      * rewrite fmap_app. apply NoDup_app. split; [done|]. split.
        -- intros h Hin Hin'. simpl in Hin'.
           apply list_elem_of_singleton in Hin'. subst h.
           apply list_elem_of_fmap in Hin as (e & He & Hin).
           apply (Hfresh e Hin). congruence.
        -- simpl. apply NoDup_singleton.
      * apply Forall_app. split; [done|]. constructor; [|constructor].
        rewrite Hrq. apply _normalize_query_idempotent.
  - destruct (get_cached_media_rows db now now' query source) as (f & -> & Hf).
    split.
    + rewrite <- list_fmap_compose.
      erewrite list_fmap_ext; [exact Hnd|]. intros i r _. simpl. apply Hf.
    + apply Forall_fmap. eapply Forall_impl; [exact Hq|].
      intros r Hr. simpl. destruct (Hf r) as [_ ->]. done.
  - split.
    + refine (sublist_NoDup _ _ Hnd _). apply fmap_sublist, sublist_filter.
    + apply Forall_forall. intros r Hr. apply list_elem_of_filter in Hr as [_ Hr].
      by apply (proj1 (Forall_forall _ _) Hq).
Qed.

(** X9. Two invariants of the media cache. Starting from an empty table,
    after any sequence of saves, lookups and sweeps, no two rows have the
    same content hash, and the query of every row is a normalized query (a
    fixed point of [_normalize_query]). *)
Theorem media_cache_invariants
    (defaults : list MediaRow -> Z -> MediaDefaults) (history : list store_call) :
  let db := store_run (empty_store defaults) history in
  NoDup (mc_file_hash <$> media_cache db)
  /\ Forall (fun r => _normalize_query (mc_query r) = mc_query r) (media_cache db).
Proof.
  intros db. unfold db, store_run.
  induction history as [|c cs IH] using rev_ind.
  - simpl. split; constructor.
  - rewrite fold_left_app. simpl. destruct IH as [Hnd Hq].
    by apply store_step_invariant.
Qed.

(** X10. Round trip of the cache. Content saved for a query that has no
    entry yet is what a lookup of that query returns, for as long as 30
    days have not passed, with or without the source it was saved under as
    a filter; the lookup counts as its first use. *)
Theorem save_then_lookup
    (db : DatabaseClient) (now later later' : Z)
    (query source media_url local_path file_hash media_type : string)
    (resolution : option string) (file_size quality_score : Z)
    (filter_source : option string) :
  (forall e, e ∈ media_cache db -> mc_file_hash e <> file_hash) ->
  (forall e, e ∈ media_cache db -> mc_query e <> _normalize_query query) ->
  later < now + 30 * 86400 * 1000000 ->
  filter_source = None \/ filter_source = Some source ->
  let saved := save_media_cache db now query source media_url local_path
                 file_hash media_type resolution file_size quality_score in
  let found := get_cached_media (snd saved) later later' query filter_source in
  exists row,
    fst saved = WholeRow row
    /\ fst found = Some row
    /\ media_cache (snd found) !! length (media_cache db)
       = Some (used_once row later').
Proof.
  intros Hfresh Hnew Hlater Hfilter saved found.
  destruct (save_media_cache_fresh db now query source media_url local_path
              file_hash media_type resolution file_size quality_score Hfresh)
    as (row & Hret & Hrows & _ & _ & Hexp & Hquery & Hsrc & _).
  fold saved in Hret, Hrows.
  assert (Hin : row ∈ media_cache (snd saved))
    by (rewrite Hrows, elem_of_app; right; left).
  assert (Hc : cache_candidate (_normalize_query query) later filter_source row
               = true).
  { apply cache_candidate_spec. split; [done|]. split; [lia|].
    destruct Hfilter as [-> | ->]; [done|]. simpl.
    destruct source; [done|]. rewrite Hsrc. apply String.eqb_refl. }
  destruct (get_cached_media_finds (snd saved) later later' query filter_source
              row Hin Hc) as [m Hm].
  fold found in Hm. exists row. split; [done|].
  destruct found as [o db'] eqn:E. simpl in Hm. subst o.
  apply get_cached_media_hit in E as (Hmin & Hmc & _ & ->).
  apply cache_candidate_spec in Hmc as (Hmq & _).
  rewrite Hrows, elem_of_app in Hmin. destruct Hmin as [Hold | Hlast].
  { by destruct (Hnew m Hold). }
  apply list_elem_of_singleton in Hlast. subst m. split; [done|].
  simpl. rewrite Hrows, fmap_app. simpl. rewrite bump_usage_self.
  rewrite lookup_app_r by (by rewrite length_fmap).
  by rewrite length_fmap, Nat.sub_diag.
Qed.

(** A first download for a query, looked up the next day with other
    spacing and case. *)
Lemma save_then_lookup_witness :
  let db := empty_store (fun _ _ =>
              {| new_id := 1; new_use_count := 0; new_last_used_at := None |}) in
  let saved := save_media_cache db 0 "Mars Rover" "nasa" "https://n/r.jpg"
                 "output/temp1.dat" "ab12" "image" None 1000 5 in
  exists row,
    fst saved = WholeRow row
    /\ fst (get_cached_media (snd saved) 86400000000 86400000001 "Mars Rover"
                             (Some "nasa"%string)) = Some row.
Proof.
  intros db saved.
  destruct (save_then_lookup db 0 86400000000 86400000001 "Mars Rover" "nasa"
              "https://n/r.jpg" "output/temp1.dat" "ab12" "image" None 1000 5
              (Some "nasa"%string)) as (row & H1 & H2 & _).
  - intros e He. by apply elem_of_nil in He.
  - intros e He. by apply elem_of_nil in He.
  - reflexivity.
  - by right.
  - exists row. split; [exact H1 | exact H2].
Defined.

Lemma NoDup_fmap_eq {A B} (f : A -> B) (l : list A) (x y : A) :
  NoDup (f <$> l) -> x ∈ l -> y ∈ l -> f x = f y -> x = y.
Proof.
  induction l as [|a l IH]; intros Hnd Hx Hy Hf.
  - by apply elem_of_nil in Hx.
  - rewrite fmap_cons in Hnd. apply NoDup_cons in Hnd as [Ha Hnd].
    apply elem_of_cons in Hx as [-> | Hx]; apply elem_of_cons in Hy as [-> | Hy].
    + done.
    + exfalso. apply Ha. rewrite Hf. by apply list_elem_of_fmap_2.
    + exfalso. apply Ha. rewrite <- Hf. by apply list_elem_of_fmap_2.
    + by apply IH.
Qed.

(** X11. Usage accounting accumulates. In a table whose ids are distinct, a
    hit followed by another lookup of the same query, made while the entry
    found is still live, finds the same entry again, with the use count one
    higher and the last-used time of the first lookup. *)
Theorem repeated_lookup
    (db : DatabaseClient) (now now' now2 now2' : Z) (query : string)
    (source : option string) (m : MediaRow) :
  NoDup (mc_id <$> media_cache db) ->
  fst (get_cached_media db now now' query source) = Some m ->
  now <= now2 < mc_expires_at m ->
  fst (get_cached_media (snd (get_cached_media db now now' query source))
                        now2 now2' query source)
  = Some (used_once m now').
Proof.
  intros Hids Hfirst Htime.
  destruct (get_cached_media db now now' query source) as [o db'] eqn:E.
  simpl in Hfirst. subst o. simpl.
  apply get_cached_media_hit in E as (Hin & Hc & Hmax & ->).
  apply cache_candidate_spec in Hc as (Hq & Hexp & Hsrc).
  set (rows' := bump_usage (mc_id m) now' (mc_use_count m + 1) <$> media_cache db).
  set (db' := set_media_cache db rows').
  assert (Hin' : used_once m now' ∈ media_cache db').
  { simpl. unfold rows'. rewrite <- bump_usage_self.
    by apply list_elem_of_fmap_2. }
  assert (Hc' : cache_candidate (_normalize_query query) now2 source
                                (used_once m now') = true).
  { apply cache_candidate_spec. simpl. split; [done|]. split; [lia|].
    destruct source as [[|c s]|]; done. }
  destruct (get_cached_media_finds db' now2 now2' query source _ Hin' Hc')
    as [x Hx].
  rewrite Hx. f_equal.
  destruct (get_cached_media db' now2 now2' query source) as [o db2] eqn:E2.
  simpl in Hx. subst o.
  apply get_cached_media_hit in E2 as (Hxin & Hxc & Hxmax & _).
  simpl in Hxin. unfold rows' in Hxin.
  apply list_elem_of_fmap in Hxin as (r0 & -> & Hr0).
  destruct (Z.eq_dec (mc_id r0) (mc_id m)) as [Heq | Hne].
  - assert (r0 = m) by (by apply (NoDup_fmap_eq mc_id (media_cache db))).
    subst r0. apply bump_usage_self.
  - exfalso. rewrite bump_usage_other in Hxc by done.
    pose proof (Hxmax _ Hin' Hc') as Hup.
    rewrite bump_usage_other in Hup by done.
    apply cache_candidate_spec in Hxc as (Hq0 & Hexp0 & Hsrc0).
    assert (Hlow : outranked_by r0 m).
    { apply Hmax; [done|]. apply cache_candidate_spec.
      split; [done|]. split; [lia | done]. }
    unfold outranked_by in *. simpl in Hup. lia.
Qed.

(** Two lookups in a row: the entry comes back with one use on record. *)
Lemma repeated_lookup_witness :
  let m := {| mc_id := 1; mc_query := "mars rover"; mc_source := "nasa";
              mc_media_url := "u"; mc_local_path := "p"; mc_file_hash := "h";
              mc_media_type := "image"; mc_resolution := None; mc_file_size := 1;
              mc_quality_score := 5; mc_use_count := 0;
              mc_last_used_at := None; mc_expires_at := 1000 |} in
  let db := {| media_cache := [m]; api_tracking := [];
               media_cache_defaults := fun _ _ =>
                 {| new_id := 2; new_use_count := 0; new_last_used_at := None |} |} in
  fst (get_cached_media (snd (get_cached_media db 10 11 "Mars Rover" None))
                        20 21 "Mars Rover" None)
  = Some (used_once m 11).
Proof.
  intros m db. apply (repeated_lookup db 10 11 20 21 "Mars Rover" None m).
  - simpl. apply NoDup_singleton.
  - reflexivity.
  - simpl. lia.
Defined.
